(** * Streaming agent loop: stage classifier, console turn state, tool dispatch

    A shallow embedding of

    - [detectReasoningStage] of [7-reasoning-response/console-reasoning.ts]
      (a lower-casing followed by four regular-expression tests in a fixed
      order),
    - the module-level turn flags of [console.ts] and [console-reasoning.ts],
    - the agent loop, the tool dispatcher and the conversation state, whose
      file ([agent.ts]) is described by the specification only.

    Strings are JavaScript strings: sequences of UTF-16 code units, kept as
    [list N]. *)

From Stdlib Require Import List Bool PeanoNat NArith Ascii String Lia.
Import ListNotations.

Set Implicit Arguments.

(* ================================================================= *)
(** ** JavaScript strings *)

Module JS.

Local Open Scope N_scope.

(** A string is a sequence of 16-bit code units. *)
Definition jsstring : Type := list N.

(** The code units of an ASCII literal of the source. *)
Definition units (s : string) : jsstring :=
  map N_of_ascii (list_ascii_of_string s).

(** [\w] of a regular expression without the [u] and [i] flags:
    [A-Za-z0-9_]. *)
Definition isWordChar (c : N) : bool :=
  ((48 <=? c) && (c <=? 57))
  || ((65 <=? c) && (c <=? 90))
  || (c =? 95)
  || ((97 <=? c) && (c <=? 122)).

(** [IsWordChar] at a position that may be outside the input (before the
    first or after the last code unit), where it is false. *)
Definition isWordAt (c : option N) : bool :=
  match c with
  | Some c => isWordChar c
  | None => false
  end.

(** Lower-casing of one code unit.  [A]-[Z] go to [a]-[z]; two characters
    outside ASCII have a lower case inside it: U+0130 (capital I with dot)
    becomes [i] followed by U+0307, and U+212A (the Kelvin sign) becomes
    [k].  Every other code unit from 128 on lower-cases to code units from
    128 on; neither [\w] nor a pattern letter tells those apart, so they
    are left in place. *)
Definition lowerUnit (c : N) : list N :=
  if (65 <=? c) && (c <=? 90) then [c + 32]
  else if c =? 304 then [105; 775]
  else if c =? 8490 then [107]
  else [c].

(** [String.prototype.toLowerCase]. *)
Definition toLowerCase (s : jsstring) : jsstring := flat_map lowerUnit s.

(** A string of ASCII characters, and [String.prototype.toUpperCase] on
    such a string: [a]-[z] go to [A]-[Z]. *)
Definition isAscii (s : jsstring) : bool := forallb (fun c => c <? 128) s.

Definition upperUnit (c : N) : N :=
  if (97 <=? c) && (c <=? 122) then c - 32 else c.

Definition toUpperCaseAscii (s : jsstring) : jsstring := map upperUnit s.

End JS.

Import JS.

(* ================================================================= *)
(** ** Regular expressions of the classifier *)

Module Regex.

(** The constructs that occur in the four patterns.  Groups, capturing or
    not, only delimit: [test] returns no captures. *)
Inductive regex : Type :=
| Lit (l : jsstring)            (* a run of pattern characters *)
| WordStar                      (* \w*  (greedy) *)
| WordBoundary                  (* \b *)
| Seq (r1 r2 : regex)           (* r1 r2 *)
| Alt (r1 r2 : regex)           (* r1|r2 *)
| Opt (r : regex).              (* (?:r)? *)

(** A position of the matcher in the input: the code unit just before
    the position, if any, and the input from the position on. *)
Definition cont : Type := option N -> jsstring -> bool.

Fixpoint lit (l : jsstring) (before : option N) (rest : jsstring)
         (k : cont) : bool :=
  match l with
  | [] => k before rest
  | a :: l' =>
      match rest with
      | c :: rest' => if N.eqb a c then lit l' (Some c) rest' k else false
      | [] => false
      end
  end.

(** Greedy [\w*]: first try to take one more word character, and when
    that fails fall back to the continuation at the current position. *)
Fixpoint wordStar (before : option N) (rest : jsstring) (k : cont) : bool :=
  match rest with
  | c :: rest' =>
      if isWordChar c then
        if wordStar (Some c) rest' k then true else k before rest
      else k before rest
  | [] => k before rest
  end.

(** The backtracking matcher, in continuation-passing style: an
    alternative is tried when the one before it, with all that follows the
    group, has failed. *)
Fixpoint run (r : regex) (before : option N) (rest : jsstring)
         (k : cont) : bool :=
  match r with
  | Lit l => lit l before rest k
  | WordStar => wordStar before rest k
  | WordBoundary =>
      if xorb (isWordAt before) (isWordAt (hd_error rest))
      then k before rest else false
  | Seq r1 r2 => run r1 before rest (fun b s => run r2 b s k)
  | Alt r1 r2 =>
      if run r1 before rest k then true else run r2 before rest k
  | Opt r1 => if run r1 before rest k then true else k before rest
  end.

Definition matchesAt (r : regex) (before : option N) (rest : jsstring)
  : bool :=
  run r before rest (fun _ _ => true).

(** A search without the [g] or [y] flag: try every start index from 0
    up to the length of the input, and stop at the first match. *)
Fixpoint search (r : regex) (before : option N) (rest : jsstring) : bool :=
  if matchesAt r before rest then true
  else match rest with
       | c :: rest' => search r (Some c) rest'
       | [] => false
       end.

(** [RegExp.prototype.test]. *)
Definition test (r : regex) (s : jsstring) : bool := search r None s.

End Regex.

Import Regex.

(* ================================================================= *)
(** ** The stage classifier *)

(** [enum ReasoningStage] of [types.ts]. *)
Inductive ReasoningStage : Type :=
| ANALYZING
| PLANNING
| DECIDING
| EXECUTING
| EVALUATING.

(** [/\b(evaluat|validat|verif|check)\w*\b/] *)
Definition re_evaluating : regex :=
  Seq WordBoundary
    (Seq (Alt (Lit (units "evaluat"))
         (Alt (Lit (units "validat"))
         (Alt (Lit (units "verif"))
              (Lit (units "check")))))
    (Seq WordStar WordBoundary)).

(** [/\b(execut\w*|implement(?:ing|ed)?|writ(?:ing|e|ten))\b/] *)
Definition re_executing : regex :=
  Seq WordBoundary
    (Seq (Alt (Seq (Lit (units "execut")) WordStar)
         (Alt (Seq (Lit (units "implement"))
                   (Opt (Alt (Lit (units "ing")) (Lit (units "ed")))))
              (Seq (Lit (units "writ"))
                   (Alt (Lit (units "ing"))
                   (Alt (Lit (units "e"))
                        (Lit (units "ten")))))))
    WordBoundary).

(** [/\b(decid|choos|select|determin)\w*\b/] *)
Definition re_deciding : regex :=
  Seq WordBoundary
    (Seq (Alt (Lit (units "decid"))
         (Alt (Lit (units "choos"))
         (Alt (Lit (units "select"))
              (Lit (units "determin")))))
    (Seq WordStar WordBoundary)).

(** [/\b(plan\w*|design|approach|strateg)\w*\b/] *)
Definition re_planning : regex :=
  Seq WordBoundary
    (Seq (Alt (Seq (Lit (units "plan")) WordStar)
         (Alt (Lit (units "design"))
         (Alt (Lit (units "approach"))
              (Lit (units "strateg")))))
    (Seq WordStar WordBoundary)).

(** [detectReasoningStage]: the first pattern that matches the lower-cased
    text decides. *)
Definition detectReasoningStage (text : jsstring) : ReasoningStage :=
  let lower := toLowerCase text in
  if test re_evaluating lower then EVALUATING
  else if test re_executing lower then EXECUTING
  else if test re_deciding lower then DECIDING
  else if test re_planning lower then PLANNING
  else ANALYZING.

Definition classify (s : string) : ReasoningStage :=
  detectReasoningStage (units s).

(* ================================================================= *)
(** ** Words and keyword families

    The vocabulary in which the specification talks about the classifier:
    the words of a text and the families of keywords.  None of this is
    used by [detectReasoningStage]; the properties below relate the two. *)

Module Words.

(** The text cut at every code unit that is not a word character; runs
    between two neighbouring separators are empty. *)
Fixpoint splitWords (s : jsstring) : list jsstring :=
  match s with
  | [] => [[]]
  | c :: s' =>
      if isWordChar c then
        match splitWords s' with
        | w :: ws => (c :: w) :: ws
        | [] => [[c]]
        end
      else [] :: splitWords s'
  end.

Definition isEmpty (w : jsstring) : bool :=
  match w with [] => true | _ => false end.

(** The words of a text: its maximal runs of word characters. *)
Definition words (s : jsstring) : list jsstring :=
  filter (fun w => negb (isEmpty w)) (splitWords s).

Fixpoint startsWith (stem w : jsstring) : bool :=
  match stem with
  | [] => true
  | a :: stem' =>
      match w with
      | c :: w' => N.eqb a c && startsWith stem' w'
      | [] => false
      end
  end.

Fixpoint sameWord (w v : jsstring) : bool :=
  match w, v with
  | [], [] => true
  | c :: w', a :: v' => N.eqb a c && sameWord w' v'
  | _, _ => false
  end.

(** [stem*]: a word that begins with one of the stems. *)
Definition anyStem (stems : list string) (w : jsstring) : bool :=
  existsb (fun st => startsWith (units st) w) stems.

(** A word that is one of the listed words. *)
Definition anyWord (ws : list string) (w : jsstring) : bool :=
  existsb (fun v => sameWord w (units v)) ws.

(** The keyword families as section 4.1 of the specification lists them:
    [evaluat*, validat*, verif*, check*]; [execut*, implement*,
    writ(e|ing|ten)]; [decid*, choos*, select*, determin*];
    [plan*, design*, approach*, strateg*]. *)
Definition spec_family (st : ReasoningStage) (w : jsstring) : bool :=
  match st with
  | EVALUATING => anyStem ["evaluat"; "validat"; "verif"; "check"] w
  | EXECUTING =>
      anyStem ["execut"; "implement"] w
      || anyWord ["write"; "writing"; "written"] w
  | DECIDING => anyStem ["decid"; "choos"; "select"; "determin"] w
  | PLANNING => anyStem ["plan"; "design"; "approach"; "strateg"] w
  | ANALYZING => false
  end%string.

(** The families as the four patterns delimit them.  They differ from the
    specification's in the Executing family only, where [implement] may be
    followed by [ing] or [ed] and by nothing else. *)
Definition family (st : ReasoningStage) (w : jsstring) : bool :=
  match st with
  | EVALUATING => anyStem ["evaluat"; "validat"; "verif"; "check"] w
  | EXECUTING =>
      anyStem ["execut"] w
      || anyWord ["implementing"; "implemented"; "implement";
                  "writing"; "write"; "written"] w
  | DECIDING => anyStem ["decid"; "choos"; "select"; "determin"] w
  | PLANNING => anyStem ["plan"; "design"; "approach"; "strateg"] w
  | ANALYZING => false
  end%string.

(** A text mentions a family when one of the words of its lower-cased
    form belongs to it (the classifier is case-insensitive). *)
Definition mentions (fam : jsstring -> bool) (text : jsstring) : bool :=
  existsb fam (words (toLowerCase text)).

(** The last and the first run of word characters of a text; empty when
    the text ends, or begins, with another character. *)
Definition lastWord (s : jsstring) : jsstring := last (splitWords s) [].

Definition firstWord (s : jsstring) : jsstring := hd [] (splitWords s).

(** Appending [t] to [s] lengthens a final word of [s] that the Executing
    pattern accepts only as a whole word. *)
Definition lengthensKeyword (s t : jsstring) : bool :=
  anyWord ["implementing"; "implemented"; "implement";
           "writing"; "write"; "written"]%string (lastWord (toLowerCase s))
  && negb (isEmpty (firstWord (toLowerCase t))).

(** Appending [t] to [s] joins no two words. *)
Definition startsNewWord (s t : jsstring) : bool :=
  isEmpty (lastWord (toLowerCase s)) || isEmpty (firstWord (toLowerCase t)).

(** Priority of a stage in the cascade; a larger number wins. *)
Definition priority (st : ReasoningStage) : nat :=
  match st with
  | ANALYZING => 0
  | PLANNING => 1
  | DECIDING => 2
  | EXECUTING => 3
  | EVALUATING => 4
  end.

(** The stage of the highest-priority family a text mentions. *)
Definition cascade (fam : ReasoningStage -> jsstring -> bool)
           (text : jsstring) : ReasoningStage :=
  if mentions (fam EVALUATING) text then EVALUATING
  else if mentions (fam EXECUTING) text then EXECUTING
  else if mentions (fam DECIDING) text then DECIDING
  else if mentions (fam PLANNING) text then PLANNING
  else ANALYZING.

End Words.

Import Words.

(* ================================================================= *)
(** ** What the console modules send to the terminal *)

Module Terminal.

(** A fragment of one write.  The colour functions ([picocolors], the
    escape codes of [console.ts]), [boxen] and [log-symbols] are rendering;
    what is kept is which fragments are the caller's text, which are fixed
    decoration (icons are named, not drawn; [StageMark] is the icon and
    label of a stage) and which is the speaker prefix.  Of the caller's
    text it is kept whether the program writes it as it got it ([Txt]) or
    hands it to a function of [picocolors] or to [boxen] first ([Styled]);
    what such a function returns is left to the terminal at hand: with
    colour support off the functions of [picocolors] return their argument
    as a string, unchanged. *)
Inductive piece : Type :=
| Txt (s : jsstring)          (* text of the caller, written as given *)
| Styled (s : jsstring)       (* text of the caller, passed to picocolors *)
| Glyph (s : string)                    (* an icon or a word of the source *)
| Newline                               (* a line feed inside a write *)
| ClaudeLabel                           (* the coloured [Claude] prefix *)
| UserLabel                             (* the coloured [You] prefix *)
| StageMark (st : ReasoningStage) (brief : bool).

Inductive output : Type :=
| Out (ps : list piece)                 (* process.stdout.write(...) *)
| OutLine (ps : list piece)             (* console.log(...) *)
| ErrLine (ps : list piece).            (* console.error / console.warn *)

Definition isLabel (p : piece) : bool :=
  match p with ClaudeLabel => true | _ => false end.

Definition piecesOf (o : output) : list piece :=
  match o with Out ps | OutLine ps | ErrLine ps => ps end.

(** How many times the [Claude] prefix was written. *)
Definition labels (os : list output) : nat :=
  List.length (filter isLabel (flat_map piecesOf os)).

End Terminal.

Import Terminal.

(* ================================================================= *)
(** ** [console.ts]: [console_out] *)

Module Console.

(** The module-level variable [claudeTurnStarted]. *)
Record state : Type := { claudeTurnStarted : bool }.

(** [let claudeTurnStarted = false]. *)
Definition initial : state := {| claudeTurnStarted := false |}.

Definition banner (message : jsstring) (st : state) : state * list output :=
  (st, [OutLine [Txt message]; OutLine []]).

Definition userPrompt (st : state) : state * list output :=
  (st, [Out [UserLabel]]).

Definition claude (text : jsstring) (st : state) : state * list output :=
  if negb (claudeTurnStarted st) then
    ({| claudeTurnStarted := true |}, [OutLine [ClaudeLabel; Txt text]])
  else
    (st, [OutLine [Txt text]]).

Definition finishClaudeTurn (st : state) : state * list output :=
  if claudeTurnStarted st then
    ({| claudeTurnStarted := false |}, [OutLine []])
  else
    (st, []).

Definition error (message : jsstring) (st : state) : state * list output :=
  (st, [ErrLine [Glyph "Error: "; Txt message]]).

(** Modelled from the spec: the prompt step of the agent loop, whose file
    is not among the sources.  Section 4.4 has the label flag reset when the
    user is prompted for new input; the only reset this module has is
    [finishClaudeTurn], to be called, in its own words, after the user input
    loop resumes. *)
Definition promptUser (st : state) : state * list output :=
  let (st1, o1) := finishClaudeTurn st in
  let (st2, o2) := userPrompt st1 in
  (st2, o1 ++ o2).

(** A run of calls to [claude] within one turn. *)
Fixpoint claudeAll (texts : list jsstring) (st : state)
  : state * list output :=
  match texts with
  | [] => (st, [])
  | t :: texts' =>
      let (st1, o1) := claude t st in
      let (st2, o2) := claudeAll texts' st1 in
      (st2, o1 ++ o2)
  end.

End Console.

(* ================================================================= *)
(** ** [console-reasoning.ts]: [console_reasoning] *)

Module ConsoleReasoning.

(** The module-level variables [claudeTurnStarted] and
    [reasoningBlockActive]. *)
Record state : Type := {
  claudeTurnStarted : bool;
  reasoningBlockActive : bool
}.

Definition initial : state :=
  {| claudeTurnStarted := false; reasoningBlockActive := false |}.

Definition effect : Type := state -> state * list output.

Definition banner (message : jsstring) : effect :=
  fun st => (st, [OutLine [Styled message]; OutLine []]).

(** [userPromptString] builds a string and touches no variable. *)
Definition userPromptString : list piece := [UserLabel].

Definition claude (text : jsstring) : effect :=
  fun st =>
    if negb (claudeTurnStarted st) then
      ({| claudeTurnStarted := true;
          reasoningBlockActive := reasoningBlockActive st |},
       [OutLine []; OutLine [ClaudeLabel; Txt text]])
    else
      (st, [OutLine []; OutLine [Txt text]]).

Definition claudeStream (delta : jsstring) : effect :=
  fun st =>
    if negb (claudeTurnStarted st) then
      ({| claudeTurnStarted := true;
          reasoningBlockActive := reasoningBlockActive st |},
       [Out [Newline; ClaudeLabel]; Out [Txt delta]])
    else
      (st, [Out [Txt delta]]).

Definition reasoningStart (stage : ReasoningStage) (collapsed : bool)
  : effect :=
  fun st =>
    ({| claudeTurnStarted := claudeTurnStarted st;
        reasoningBlockActive := true |},
     [OutLine [Newline; Glyph "thought balloon";
               StageMark stage collapsed]]).

Definition thinkingStream (delta : jsstring) (stage : ReasoningStage)
  : effect :=
  fun st => (st, [Out [Styled delta]]).

Definition reasoningEnd : effect :=
  fun st =>
    if reasoningBlockActive st then
      ({| claudeTurnStarted := claudeTurnStarted st;
          reasoningBlockActive := false |},
       [OutLine []])
    else
      (st, []).

Definition reasoningCollapsed (summary : jsstring) : effect :=
  fun st => (st, [OutLine [Glyph "thought balloon"; Styled summary]]).

Definition toolStart (toolName : jsstring) : effect :=
  fun st =>
    (st, [OutLine [Newline; Glyph "high voltage"; Glyph "Calling";
                   Styled toolName]]).

Definition toolEnd (toolName : jsstring) (success : bool) : effect :=
  fun st =>
    if success then
      (st, [OutLine [Glyph "check mark"; Glyph "Finished"; Styled toolName]])
    else
      (st, [OutLine [Glyph "ballot x"; Glyph "Failed"; Styled toolName]]).

Definition finishClaudeTurn : effect :=
  fun st =>
    let (st1, o) :=
      if claudeTurnStarted st then
        ({| claudeTurnStarted := false;
            reasoningBlockActive := reasoningBlockActive st |},
         [OutLine []])
      else (st, [])
    in
    ({| claudeTurnStarted := claudeTurnStarted st1;
        reasoningBlockActive := false |}, o).

Definition error (message : jsstring) : effect :=
  fun st =>
    (st, [ErrLine [Glyph "error symbol"; Glyph "Error"; Glyph ": ";
                   Txt message]]).

Definition success (message : jsstring) : effect :=
  fun st => (st, [OutLine [Glyph "success symbol"; Styled message]]).

Definition warn (message : jsstring) : effect :=
  fun st => (st, [ErrLine [Glyph "warning symbol"; Styled message]]).

Definition info (message : jsstring) : effect :=
  fun st => (st, [OutLine [Glyph "info symbol"; Styled message]]).

(** The calls a caller can make, as data. *)
Inductive call : Type :=
| Banner (message : jsstring)
| Claude (text : jsstring)
| ClaudeStream (delta : jsstring)
| ReasoningStart (stage : ReasoningStage) (collapsed : bool)
| ThinkingStream (delta : jsstring) (stage : ReasoningStage)
| ReasoningEnd
| ReasoningCollapsed (summary : jsstring)
| ToolStart (toolName : jsstring)
| ToolEnd (toolName : jsstring) (success : bool)
| FinishClaudeTurn
| Error (message : jsstring)
| Success (message : jsstring)
| Warn (message : jsstring)
| Info (message : jsstring).

Definition perform (c : call) : effect :=
  match c with
  | Banner m => banner m
  | Claude t => claude t
  | ClaudeStream d => claudeStream d
  | ReasoningStart s c => reasoningStart s c
  | ThinkingStream d s => thinkingStream d s
  | ReasoningEnd => reasoningEnd
  | ReasoningCollapsed s => reasoningCollapsed s
  | ToolStart n => toolStart n
  | ToolEnd n ok => toolEnd n ok
  | FinishClaudeTurn => finishClaudeTurn
  | Error m => error m
  | Success m => success m
  | Warn m => warn m
  | Info m => info m
  end.

(** Calls one after the other, outputs in order. *)
Fixpoint performAll (cs : list call) : effect :=
  fun st =>
    match cs with
    | [] => (st, [])
    | c :: cs' =>
        let (st1, o1) := perform c st in
        let (st2, o2) := performAll cs' st1 in
        (st2, o1 ++ o2)
    end.

(** Modelled from the spec: the prompt step of the agent loop, whose file
    is not among the sources.  Section 4.4 has the label flag reset when the
    user is prompted for new input: the loop ends the turn with
    [finishClaudeTurn] and then asks [readline] with [userPromptString]. *)
Definition promptUser : effect :=
  fun st =>
    let (st1, o) := finishClaudeTurn st in
    (st1, o ++ [Out userPromptString]).

Definition isText (c : call) : bool :=
  match c with Claude _ | ClaudeStream _ => true | _ => false end.

Definition isFinish (c : call) : bool :=
  match c with FinishClaudeTurn => true | _ => false end.

End ConsoleReasoning.

(* ================================================================= *)
(** ** The agent loop, the dispatcher and the conversation

    [agent.ts] is not among the sources: only its caller [index.ts], the
    tool contract of [types.ts] and the console modules are.  Everything in
    this module is therefore written from the specification. *)

Module Agent.

(** How a promise settles: [Execute] of [types.ts] returns a
    [Promise<string>], which resolves to a string or rejects with a failure
    message. *)
Inductive completion (A : Type) : Type :=
| Returned (a : A)
| Thrown (message : jsstring).

Arguments Returned {A} a.
Arguments Thrown {A} message.

(** Modelled from the spec: the presentation sink of section 6. *)
Inductive notification : Type :=
| bannerShown
| textAppended (delta : jsstring)
| reasoningStarted (stage : ReasoningStage)
| reasoningAppended (delta : jsstring) (stage : ReasoningStage)
| reasoningStageChanged (oldStage newStage : ReasoningStage)
| reasoningEnded (durationMs : N)
| toolStarted (name : jsstring)
| toolFinished (name : jsstring) (success : bool)
| turnFinished
| errorRaised (message : jsstring).

Inductive role : Type := User | Assistant.

(** Modelled from the spec: [ToolOutcome] of section 3. *)
Record ToolOutcome : Type := {
  toolUseId : jsstring;
  content : jsstring;
  isError : bool
}.

Definition jsstring_eq_dec : forall a b : jsstring, {a = b} + {a <> b} :=
  list_eq_dec N.eq_dec.

Definition sameName (a b : jsstring) : bool :=
  if jsstring_eq_dec a b then true else false.

Section Loop.

(** What the tools act on (files, processes), and the structured input of
    a tool call. *)
Variable World : Type.
Variable Value : Type.

(** Modelled from the spec: the input of a tool call once its block is
    closed (section 4.3): the accumulated partial input parsed into the
    structured value, or, when it does not parse, the description of the
    failure (the [InputParseError] of section 7). *)
Inductive parsed : Type :=
| structured (v : Value)
| malformed (message : jsstring).

(** Modelled from the spec: a [tool_use] content block (section 3). *)
Record ToolUse : Type := {
  id : jsstring;
  name : jsstring;
  input : parsed
}.

(** Modelled from the spec: the content blocks of section 3. *)
Inductive block : Type :=
| text (value : jsstring)
| tool_use (u : ToolUse)
| tool_result (tool_use_id : jsstring) (result : jsstring) (is_error : bool).

(** Modelled from the spec: a turn and the conversation (section 3). *)
Record turn : Type := {
  turnRole : role;
  blocks : list block
}.

Definition ConversationState : Type := list turn.

(** [interface ToolDefinition] of [types.ts]: [Param], of which dispatch
    reads the name only, and [Execute], which returns a promise and acts on
    the world. *)
Record ToolDefinition : Type := {
  ParamName : jsstring;
  Execute : Value -> World -> completion jsstring * World
}.

(** Modelled from the spec: the registry maps a name to its tool. *)
Definition ToolRegistry : Type := list ToolDefinition.

Definition lookup (reg : ToolRegistry) (nm : jsstring)
  : option ToolDefinition :=
  find (fun t => sameName (ParamName t) nm) reg.

Definition toolNotFound (nm : jsstring) : jsstring :=
  units "tool not found: " ++ nm.

(** Modelled from the spec: [dispatch] of section 4.2.  The two
    notifications are optional there; the model emits them around every
    invocation.  An input that did not parse is, in the words of section 7,
    treated as a failure of the execution: the tool is not invoked, the
    world is left as it is, and the outcome is the description of the
    failure, as an error. *)
Definition dispatch (reg : ToolRegistry) (u : ToolUse) (w : World)
  : ToolOutcome * World * list notification :=
  match lookup reg (name u) with
  | None =>
      ({| toolUseId := id u;
          content := toolNotFound (name u);
          isError := true |}, w, [])
  | Some t =>
      match input u with
      | malformed m =>
          ({| toolUseId := id u; content := m; isError := true |}, w,
           [toolStarted (name u); toolFinished (name u) false])
      | structured v =>
          match Execute t v w with
          | (Returned s, w') =>
              ({| toolUseId := id u; content := s; isError := false |}, w',
               [toolStarted (name u); toolFinished (name u) true])
          | (Thrown m, w') =>
              ({| toolUseId := id u; content := m; isError := true |}, w',
               [toolStarted (name u); toolFinished (name u) false])
          end
      end
  end.

(** Modelled from the spec: the [Dispatching] phase of section 4.5 runs
    the dispatcher over the blocks in order, one at a time: each call
    starts in the world the previous one left. *)
Fixpoint dispatchAll (reg : ToolRegistry) (calls : list ToolUse) (w : World)
  : list ToolOutcome * World * list notification :=
  match calls with
  | [] => ([], w, [])
  | u :: calls' =>
      let '(o, w1, n1) := dispatch reg u w in
      let '(os, w2, n2) := dispatchAll reg calls' w1 in
      (o :: os, w2, n1 ++ n2)
  end.

Definition resultBlock (o : ToolOutcome) : block :=
  tool_result (toolUseId o) (content o) (isError o).

(** Modelled from the spec: a finalized block of one response (section
    4.3): text, thinking or a tool call. *)
Inductive received : Type :=
| gotText (value : jsstring)
| gotThinking (value : jsstring)
| gotToolUse (u : ToolUse).

(** Thinking blocks are shown and not kept in the history. *)
Definition kept (bs : list received) : list block :=
  flat_map (fun b =>
              match b with
              | gotText v => [text v]
              | gotThinking _ => []
              | gotToolUse u => [tool_use u]
              end) bs.

Definition requested (bs : list received) : list ToolUse :=
  flat_map (fun b => match b with gotToolUse u => [u] | _ => [] end) bs.

(** Whether a finalized block of a response, and whether a block of a
    turn, is a tool call. *)
Definition isToolUse (b : received) : bool :=
  match b with gotToolUse _ => true | _ => false end.

Definition isCall (b : block) : bool :=
  match b with tool_use _ => true | _ => false end.

(** Modelled from the spec: the states of section 4.5.  [Streaming] holds
    the blocks finalized so far, which are no part of the conversation
    yet. *)
Inductive phase : Type :=
| AwaitingInput
| Requesting
| Streaming (collected : list received)
| Dispatching (calls : list ToolUse).

Record state : Type := {
  current : phase;
  conversation : ConversationState;
  world : World;
  shown : list notification
}.

(** What happens to the loop from outside, and its one internal step. *)
Inductive event : Type :=
| UserLine (line : jsstring)
| RequestAccepted
| BlockClosed (b : received)
| EndOfStream
| TransportError (message : jsstring)
| ToolsRun.

Definition start (w : World) : state :=
  {| current := AwaitingInput; conversation := [];
     world := w; shown := [bannerShown] |}.

(** Modelled from the spec: the transitions and the failure semantics of
    section 4.5.  An event that the current state does not expect is not
    taken ([None]). *)
Definition step (reg : ToolRegistry) (st : state) (ev : event)
  : option state :=
  match current st, ev with
  | AwaitingInput, UserLine line =>
      Some {| current := Requesting;
              conversation :=
                conversation st
                ++ [{| turnRole := User; blocks := [text line] |}];
              world := world st; shown := shown st |}
  | Requesting, RequestAccepted =>
      Some {| current := Streaming [];
              conversation := conversation st;
              world := world st; shown := shown st |}
  | Requesting, TransportError m
  | Streaming _, TransportError m =>
      Some {| current := AwaitingInput;
              conversation := conversation st;
              world := world st;
              shown := shown st ++ [errorRaised m] |}
  | Streaming col, BlockClosed b =>
      Some {| current := Streaming (col ++ [b]);
              conversation := conversation st;
              world := world st; shown := shown st |}
  | Streaming col, EndOfStream =>
      let conv :=
        conversation st
        ++ [{| turnRole := Assistant; blocks := kept col |}] in
      match requested col with
      | [] =>
          Some {| current := AwaitingInput; conversation := conv;
                  world := world st;
                  shown := shown st ++ [turnFinished] |}
      | calls =>
          Some {| current := Dispatching calls; conversation := conv;
                  world := world st; shown := shown st |}
      end
  | Dispatching calls, ToolsRun =>
      let '(outcomes, w, ns) := dispatchAll reg calls (world st) in
      Some {| current := Requesting;
              conversation :=
                conversation st
                ++ [{| turnRole := User;
                       blocks := map resultBlock outcomes |}];
              world := w; shown := shown st ++ ns |}
  | _, _ => None
  end.

Fixpoint run (reg : ToolRegistry) (st : state) (evs : list event)
  : option state :=
  match evs with
  | [] => Some st
  | ev :: evs' =>
      match step reg st ev with
      | Some st' => run reg st' evs'
      | None => None
      end
  end.

(** The identifiers of the tool calls, and of the tool results, of a
    turn, in order. *)
Definition useIds (bs : list block) : list jsstring :=
  flat_map (fun b => match b with tool_use u => [id u] | _ => [] end) bs.

Definition resultIds (bs : list block) : list jsstring :=
  flat_map (fun b =>
              match b with tool_result i _ _ => [i] | _ => [] end) bs.

(** The turn that comes last, [prev] standing for what precedes the
    list. *)
Fixpoint lastTurn (prev : option turn) (conv : list turn) : option turn :=
  match conv with
  | [] => prev
  | t :: rest => lastTurn (Some t) rest
  end.

(** The invariant of section 3 for one turn after [prev]: an assistant
    turn holds no tool result, and the tool results of a user turn answer,
    one for one and in order, the tool calls of the assistant turn just
    before it. *)
Definition answers (prev : option turn) (t : turn) : Prop :=
  match turnRole t with
  | Assistant => resultIds (blocks t) = []
  | User =>
      resultIds (blocks t) = []
      \/ exists p, prev = Some p /\ turnRole p = Assistant
                   /\ resultIds (blocks t) = useIds (blocks p)
  end.

Fixpoint linked (prev : option turn) (conv : list turn) : Prop :=
  match conv with
  | [] => True
  | t :: rest => answers prev t /\ linked (Some t) rest
  end.

(** What the loop maintains: the conversation is linked, and while tools
    are pending they are the calls of its last turn. *)
Definition consistent (st : state) : Prop :=
  linked None (conversation st)
  /\ forall calls,
       current st = Dispatching calls ->
       exists p, lastTurn None (conversation st) = Some p
                 /\ turnRole p = Assistant
                 /\ useIds (blocks p) = map id calls.

End Loop.

Arguments AwaitingInput {Value}.
Arguments Requesting {Value}.
Arguments UserLine {Value} line.
Arguments RequestAccepted {Value}.
Arguments EndOfStream {Value}.
Arguments TransportError {Value} message.
Arguments ToolsRun {Value}.
Arguments text {Value} value.
Arguments tool_result {Value} tool_use_id result is_error.
Arguments gotText {Value} value.
Arguments gotThinking {Value} value.
Arguments malformed {Value} message.
Arguments start {World} Value w.

End Agent.

(* ================================================================= *)
(** ** A small registry to run the loop on *)

Module Scenario.

Import Agent.

(** A world that records which tools ran, in order. *)
Definition journal : Type := list jsstring.

(** A tool that writes its name in the journal and settles as told. *)
Definition recording (nm : string) (answer : completion jsstring)
  : ToolDefinition journal unit :=
  {| ParamName := units nm;
     Execute := fun _ w => (answer, w ++ [units nm]) |}.

Definition registry : ToolRegistry journal unit :=
  [recording "read_file" (Returned (units "contents"));
   recording "bash" (Thrown (units "exit status 1"))].

Definition callA : ToolUse unit :=
  {| id := units "toolu_A"; name := units "read_file";
     input := structured tt |}.

Definition callB : ToolUse unit :=
  {| id := units "toolu_B"; name := units "bash";
     input := structured tt |}.

Definition frobnicate : ToolUse unit :=
  {| id := units "toolu_C"; name := units "frobnicate";
     input := structured tt |}.

(** A user line, a response with the two calls, their dispatch, and a
    final answer. *)
Definition session : list (event unit) :=
  [UserLine (units "what is in the file?");
   RequestAccepted;
   BlockClosed (gotThinking (units "let me check"));
   BlockClosed (gotToolUse callA);
   BlockClosed (gotToolUse callB);
   EndOfStream;
   ToolsRun;
   RequestAccepted;
   BlockClosed (gotText (units "done"));
   EndOfStream].

(** The loop right after a user line. *)
Definition asked : state journal unit :=
  {| current := Requesting;
     conversation :=
       [{| turnRole := User; blocks := [text (units "hello")] |}];
     world := [];
     shown := [bannerShown] |}.

(** The state in which [session] leaves the loop. *)
Definition ended : state journal unit :=
  Eval vm_compute in
    match run registry (start unit []) session with
    | Some st => st
    | None => start unit []
    end.

(** A call of a registered tool whose input did not parse. *)
Definition garbled : ToolUse unit :=
  {| id := units "toolu_D"; name := units "read_file";
     input := malformed (units "Unexpected end of JSON input") |}.

(** The loop at the end of a response that holds thinking, the call [callA],
    text, and the call [callB], in this order. *)
Definition streamed : state journal unit :=
  {| current :=
       Streaming [gotThinking (units "let me check");
                  gotToolUse callA;
                  gotText (units "and then");
                  gotToolUse callB];
     conversation :=
       [{| turnRole := User; blocks := [text (units "hello")] |}];
     world := [];
     shown := [bannerShown] |}.

(** The loop about to run the calls of a response that asked for a tool
    that is not registered, for one that fails, and for one whose input did
    not parse. *)
Definition pending : state journal unit :=
  {| current := Dispatching [frobnicate; callB; garbled];
     conversation :=
       [{| turnRole := User; blocks := [text (units "hello")] |};
        {| turnRole := Assistant;
           blocks := [tool_use frobnicate; tool_use callB;
                      tool_use garbled] |}];
     world := [];
     shown := [bannerShown] |}.

(** A response in which the service gives two tool calls the same
    identifier, and the state in which it leaves the loop once the calls
    have run. *)
Definition repeated : list (event unit) :=
  [UserLine (units "what is in the file?");
   RequestAccepted;
   BlockClosed (gotToolUse callA);
   BlockClosed (gotToolUse callA);
   EndOfStream;
   ToolsRun].

Definition answeredTwice : state journal unit :=
  Eval vm_compute in
    match run registry (start unit []) repeated with
    | Some st => st
    | None => start unit []
    end.

End Scenario.

(* ================================================================= *)
(** ** Reading a word with a pattern

    Auxiliary notions for the proofs: what a pattern whose letters are all
    word characters accepts of the word that starts at a position. *)

(** The first word of a string, read from its first code unit. *)
Fixpoint leadingWord (s : jsstring) : jsstring :=
  match s with
  | c :: s' => if isWordChar c then c :: leadingWord s' else []
  | [] => []
  end.

(** What is left to recognise of a word after the letters [w]. *)
Fixpoint after (w : jsstring) (P : jsstring -> bool) (x : jsstring) : bool :=
  match w with
  | [] => P x
  | a :: w' =>
      match x with
      | c :: x' => N.eqb a c && after w' P x'
      | [] => false
      end
  end.

(** A continuation that, called right after a word character, answers
    according to the rest of the current word only. *)
Definition reads (k : cont) (P : jsstring -> bool) : Prop :=
  forall b s, isWordAt b = true -> k b s = P (leadingWord s).

(** Every pattern letter is a word character. *)
Fixpoint wordy (r : regex) : bool :=
  match r with
  | Lit w => forallb isWordChar w
  | WordStar | WordBoundary => true
  | Seq r1 r2 | Alt r1 r2 => wordy r1 && wordy r2
  | Opt r1 => wordy r1
  end.

(** The pattern cannot succeed without reading a letter first. *)
Fixpoint guarded (r : regex) : bool :=
  match r with
  | Lit w => negb (isEmpty w)
  | WordStar | WordBoundary | Opt _ => false
  | Seq r1 _ => guarded r1
  | Alt r1 r2 => guarded r1 && guarded r2
  end.

(** [P] holds of the word or of what is left of it after some letters. *)
Fixpoint anySuffix (P : jsstring -> bool) (x : jsstring) : bool :=
  match x with
  | [] => P []
  | _ :: x' => anySuffix P x' || P x
  end.

(** The words [x] of which the pattern matches a prefix that leaves a rest
    in [P]. *)
Fixpoint residual (r : regex) (P : jsstring -> bool) : jsstring -> bool :=
  match r with
  | Lit w => after w P
  | WordStar => anySuffix P
  | WordBoundary => fun x => isEmpty x && P x
  | Seq r1 r2 => residual r1 (residual r2 P)
  | Alt r1 r2 => fun x => residual r1 P x || residual r2 P x
  | Opt r1 => fun x => residual r1 P x || P x
  end.

(* ================================================================= *)
(** ** [REASONING_VISUALS] and the values of [enum ReasoningStage] *)

Module Visuals.

(** The [picocolors] functions that serve as stage colours. *)
Inductive pcColor : Type := cyan | blue | magenta | yellow | green.

(** [interface ReasoningStageVisual] of [types.ts]. *)
Record ReasoningStageVisual : Type := {
  icon : jsstring;
  color : pcColor;
  label : string
}.

(** The string value of each member of [enum ReasoningStage]. *)
Definition stageValue (st : ReasoningStage) : string :=
  match st with
  | ANALYZING => "analyzing"
  | PLANNING => "planning"
  | DECIDING => "deciding"
  | EXECUTING => "executing"
  | EVALUATING => "evaluating"
  end.

(** [REASONING_VISUALS]; the icons are U+1F914, U+1F4CB, U+1F4A1, U+26A1
    and U+2713, the first three as surrogate pairs. *)
Definition REASONING_VISUALS (st : ReasoningStage) : ReasoningStageVisual :=
  match st with
  | ANALYZING =>
      {| icon := [55358; 56596]%N; color := cyan; label := "Analyzing" |}
  | PLANNING =>
      {| icon := [55357; 56523]%N; color := blue; label := "Planning" |}
  | DECIDING =>
      {| icon := [55357; 56481]%N; color := magenta; label := "Deciding" |}
  | EXECUTING =>
      {| icon := [9889]%N; color := yellow; label := "Executing" |}
  | EVALUATING =>
      {| icon := [10003]%N; color := green; label := "Evaluating" |}
  end.

End Visuals.

(* ================================================================= *)
(** ** Sequences of calls to [console_out] and what they show *)

Module ConsoleOut.

(** The calls of [console.ts], as data. *)
Inductive call : Type :=
| Banner (message : jsstring)
| UserPrompt
| Claude (text : jsstring)
| FinishClaudeTurn
| Error (message : jsstring).

Definition perform (c : call) (st : Console.state)
  : Console.state * list output :=
  match c with
  | Banner m => Console.banner m st
  | UserPrompt => Console.userPrompt st
  | Claude t => Console.claude t st
  | FinishClaudeTurn => Console.finishClaudeTurn st
  | Error m => Console.error m st
  end.

Fixpoint performAll (cs : list call) (st : Console.state)
  : Console.state * list output :=
  match cs with
  | [] => (st, [])
  | c :: cs' =>
      let (st1, o1) := perform c st in
      let (st2, o2) := performAll cs' st1 in
      (st2, o1 ++ o2)
  end.

Definition isText (c : call) : bool :=
  match c with Claude _ => true | _ => false end.

Definition isFinish (c : call) : bool :=
  match c with FinishClaudeTurn => true | _ => false end.

(** The messages handed to [banner] and [claude], in call order. *)
Definition handed (cs : list call) : list jsstring :=
  flat_map (fun c =>
              match c with Banner m | Claude m => [m] | _ => [] end) cs.

End ConsoleOut.

(* ================================================================= *)
(** ** Reading an output back *)

(** The caller's texts that the program wrote to standard output as it got
    them, through no colour function, in order. *)
Definition plainOf (ps : list piece) : list jsstring :=
  flat_map (fun p => match p with Txt s => [s] | _ => [] end) ps.

Definition stdoutText (os : list output) : list jsstring :=
  flat_map (fun o =>
              match o with
              | Out ps | OutLine ps => plainOf ps
              | ErrLine _ => []
              end) os.

(** The calls of [console_reasoning] that read or write
    [claudeTurnStarted], and those that read or write
    [reasoningBlockActive]. *)
Definition turnCall (c : ConsoleReasoning.call) : bool :=
  ConsoleReasoning.isText c || ConsoleReasoning.isFinish c.

Definition reasoningCall (c : ConsoleReasoning.call) : bool :=
  match c with
  | ConsoleReasoning.ReasoningStart _ _
  | ConsoleReasoning.ReasoningEnd
  | ConsoleReasoning.FinishClaudeTurn => true
  | _ => false
  end.

(** The stage of higher priority. *)
Definition higher (a b : ReasoningStage) : ReasoningStage :=
  if priority a <? priority b then b else a.

(** The caller's text among the pieces written to standard output, each
    with the way it was written, in order. *)
Definition callerPieces (ps : list piece) : list piece :=
  filter (fun p => match p with Txt _ | Styled _ => true | _ => false end)
         ps.

Definition stdoutCallerPieces (os : list output) : list piece :=
  flat_map (fun o =>
              match o with
              | Out ps | OutLine ps => callerPieces ps
              | ErrLine _ => []
              end) os.

(** What a call of [console_reasoning] is given to show on standard
    output: the argument of [claude] and [claudeStream], which the source
    writes as it is, and the argument of [banner], [thinkingStream],
    [reasoningCollapsed], [toolStart], [toolEnd], [success] and [info],
    which the source passes to [picocolors] ([banner] also to [boxen]).
    [error] and [warn] write to standard error; the other calls take no
    text. *)
Definition handedTo (c : ConsoleReasoning.call) : list piece :=
  match c with
  | ConsoleReasoning.Claude t | ConsoleReasoning.ClaudeStream t => [Txt t]
  | ConsoleReasoning.Banner m
  | ConsoleReasoning.ThinkingStream m _
  | ConsoleReasoning.ReasoningCollapsed m
  | ConsoleReasoning.ToolStart m
  | ConsoleReasoning.ToolEnd m _
  | ConsoleReasoning.Success m
  | ConsoleReasoning.Info m => [Styled m]
  | _ => []
  end.

(** A code unit that is no word character and that lower-casing does not
    turn into one: a space, a punctuation mark, a code unit of a CJK or an
    Arabic letter, a half of a surrogate pair. *)
Definition isSeparator (c : N) : bool :=
  negb (isWordChar c) && negb (c =? 304)%N && negb (c =? 8490)%N.

(* ================================================================= *)
(** ** [index.ts]: [main] and its last-resort handler *)

Module Index.



















End Index.

(* ================================================================= *)
(** * Properties *)

(* ----------------------------------------------------------------- *)
(** ** The matcher on one word *)

(** The conditionals of the matcher, read as conjunctions and
    disjunctions. *)
Ltac boolify :=
  repeat match goal with
    | |- context [if ?a then ?b else false] =>
        change (if a then b else false) with (andb a b)
    | |- context [if ?a then true else ?b] =>
        change (if a then true else b) with (orb a b)
    end.

Lemma splitWords_head (s : jsstring) :
  exists ws, splitWords s = leadingWord s :: ws.
Proof.
  induction s as [|c s [ws IH]]; simpl.
  - now exists [].
  - destruct (isWordChar c).
    + rewrite IH. now exists ws.
    + now exists (splitWords s).
Qed.

Lemma after_ext (w : jsstring) (P Q : jsstring -> bool) :
  (forall x, P x = Q x) -> forall x, after w P x = after w Q x.
Proof.
  intros HPQ. induction w as [|a w IH]; intros x; simpl; [apply HPQ|].
  destruct x as [|c x]; [reflexivity|]. now rewrite IH.
Qed.

Lemma after_orb (w : jsstring) (P Q : jsstring -> bool) (x : jsstring) :
  after w (fun y => P y || Q y) x = after w P x || after w Q x.
Proof.
  revert x. induction w as [|a w IH]; intros x; simpl; [reflexivity|].
  destruct x as [|c x]; [reflexivity|]. rewrite IH.
  now destruct (N.eqb a c).
Qed.

Lemma after_after (w v : jsstring) (P : jsstring -> bool) (x : jsstring) :
  after w (after v P) x = after (w ++ v) P x.
Proof.
  revert x. induction w as [|a w IH]; intros x; simpl; [reflexivity|].
  destruct x as [|c x]; [reflexivity|]. now rewrite IH.
Qed.

Lemma after_any (w x : jsstring) :
  after w (fun _ => true) x = startsWith w x.
Proof.
  revert x. induction w as [|a w IH]; intros x; simpl; [reflexivity|].
  destruct x as [|c x]; [reflexivity|]. now rewrite IH.
Qed.

Lemma after_end (w x : jsstring) : after w isEmpty x = sameWord x w.
Proof.
  revert x. induction w as [|a w IH]; intros x; simpl.
  - now destruct x.
  - destruct x as [|c x]; [reflexivity|]. now rewrite IH.
Qed.

Lemma lit_reads (k : cont) (P : jsstring -> bool) :
  reads k P ->
  forall w b s,
    forallb isWordChar w = true ->
    w <> [] \/ isWordAt b = true ->
    lit w b s k = after w P (leadingWord s).
Proof.
  intros Hk. induction w as [|a w IH]; intros b s Hw Hb; simpl.
  - destruct Hb as [Hb|Hb]; [congruence|]. now apply Hk.
  - simpl in Hw. apply andb_true_iff in Hw as [Ha Hw].
    destruct s as [|c s]; simpl; [reflexivity|].
    destruct (N.eqb_spec a c) as [->|Hac].
    + rewrite Ha. simpl. rewrite N.eqb_refl. simpl.
      apply IH; [exact Hw|]. right. exact Ha.
    + destruct (isWordChar c); simpl; [|reflexivity].
      now destruct (N.eqb_spec a c).
Qed.

(* ----------------------------------------------------------------- *)
(** ** What a pattern reads of a word *)

Lemma wordStar_reads (k : cont) (P : jsstring -> bool) :
  reads k P -> reads (fun b s => wordStar b s k) (anySuffix P).
Proof.
  intros Hk b s. revert b.
  induction s as [|c s IH]; intros b Hb; simpl.
  - now apply Hk.
  - rewrite (Hk b (c :: s) Hb). simpl.
    destruct (isWordChar c) eqn:Hc; simpl; [|reflexivity].
    rewrite IH by exact Hc. boolify. reflexivity.
Qed.

Lemma run_reads (r : regex) :
  wordy r = true ->
  forall (k : cont) (P : jsstring -> bool),
    reads k P ->
    forall b s,
      guarded r = true \/ isWordAt b = true ->
      run r b s k = residual r P (leadingWord s).
Proof.
  induction r as [w| | |r1 IH1 r2 IH2|r1 IH1 r2 IH2|r1 IH1];
    simpl; intros Hw k P Hk b s Hg; boolify.
  - apply lit_reads; [exact Hk|exact Hw|].
    destruct Hg as [Hg|Hg]; [left|now right].
    now destruct w.
  - destruct Hg as [Hg|Hg]; [discriminate|].
    now apply wordStar_reads.
  - destruct Hg as [Hg|Hg]; [discriminate|].
    rewrite Hg, (Hk b s Hg).
    destruct s as [|c s]; simpl; [reflexivity|].
    now destruct (isWordChar c).
  - apply andb_true_iff in Hw as [Hw1 Hw2].
    apply IH1; [exact Hw1| |exact Hg].
    intros b' s' Hb'. apply IH2; [exact Hw2|exact Hk|now right].
  - apply andb_true_iff in Hw as [Hw1 Hw2].
    assert (Hg1 : guarded r1 = true \/ isWordAt b = true).
    { destruct Hg as [Hg|Hg]; [left|now right].
      now apply andb_true_iff in Hg. }
    assert (Hg2 : guarded r2 = true \/ isWordAt b = true).
    { destruct Hg as [Hg|Hg]; [left|now right].
      now apply andb_true_iff in Hg. }
    now rewrite (IH1 Hw1 k P Hk b s Hg1), (IH2 Hw2 k P Hk b s Hg2).
  - destruct Hg as [Hg|Hg]; [discriminate|].
    rewrite (IH1 Hw k P Hk b s (or_intror Hg)).
    now rewrite (Hk b s Hg).
Qed.

(** A pattern of the form [\b r], [r] guarded: it matches at a position
    exactly when a word starts there and [r] reads it. *)
Lemma matchesAt_bounded (r : regex) (b : option N) (s : jsstring) :
  wordy r = true -> guarded r = true ->
  residual r (fun _ => true) [] = false ->
  matchesAt (Seq WordBoundary r) b s
  = negb (isWordAt b) && residual r (fun _ => true) (leadingWord s).
Proof.
  intros Hw Hg Hnil. unfold matchesAt. cbn [run]. boolify.
  rewrite (@run_reads r Hw (fun _ _ => true) (fun _ => true));
    [|intros ? ? ?; reflexivity|now left].
  destruct s as [|c s]; simpl.
  - now rewrite Hnil, !andb_false_r.
  - destruct (isWordChar c); simpl.
    + now destruct (isWordAt b).
    + now rewrite Hnil, !andb_false_r.
Qed.

(** Searching for a word with a property is looking through the words. *)
Lemma search_words (r : regex) (F : jsstring -> bool) :
  F [] = false ->
  (forall b s, matchesAt r b s = negb (isWordAt b) && F (leadingWord s)) ->
  forall b s,
    search r b s
    = existsb F (if isWordAt b then tl (splitWords s) else splitWords s).
Proof.
  intros Hnil Hm b s. revert b.
  induction s as [|c s IH]; intros b; simpl; rewrite Hm; simpl; boolify.
  - destruct (isWordAt b); simpl; now rewrite ?Hnil.
  - rewrite IH. simpl.
    destruct (splitWords_head s) as [ws Hs].
    destruct (isWordChar c) eqn:Hc; rewrite Hs; simpl.
    + now destruct (isWordAt b).
    + rewrite Hnil, andb_false_r. simpl.
      destruct (isWordAt b); simpl; [reflexivity|].
      now rewrite Hnil.
Qed.

Lemma existsb_words (F : jsstring -> bool) (s : jsstring) :
  F [] = false -> existsb F (words s) = existsb F (splitWords s).
Proof.
  intros Hnil. unfold words.
  induction (splitWords s) as [|w ws IH]; simpl; [reflexivity|].
  destruct w as [|c w]; simpl.
  - now rewrite Hnil.
  - now rewrite IH.
Qed.

Lemma test_bounded (r : regex) (F : jsstring -> bool) (s : jsstring) :
  wordy r = true -> guarded r = true ->
  F [] = false ->
  (forall x, residual r (fun _ => true) x = F x) ->
  test (Seq WordBoundary r) s = existsb F (words s).
Proof.
  intros Hw Hg Hnil HF. unfold test.
  rewrite (@search_words (Seq WordBoundary r) F Hnil).
  - simpl. now rewrite existsb_words.
  - intros b s'. rewrite matchesAt_bounded; [|assumption..|].
    + now rewrite HF.
    + now rewrite HF.
Qed.

(* ----------------------------------------------------------------- *)
(** ** The four patterns, word by word *)

Lemma anySuffix_true (P : jsstring -> bool) (x : jsstring) :
  P [] = true -> anySuffix P x = true.
Proof.
  intros HP. induction x as [|c x IH]; simpl; [exact HP|].
  now rewrite IH.
Qed.

Lemma after_stem (w : jsstring) (P : jsstring -> bool) (x : jsstring) :
  (forall y, P y = true) -> after w P x = startsWith w x.
Proof.
  intros HP. rewrite <- after_any. now apply after_ext.
Qed.

Lemma after_word (w : jsstring) (x : jsstring) :
  after w (fun y => isEmpty y && true) x = sameWord x w.
Proof.
  rewrite <- after_end. apply after_ext.
  intros y. apply andb_true_r.
Qed.

Ltac stems :=
  repeat rewrite after_stem
    by (intros; repeat (apply anySuffix_true; try reflexivity));
  repeat rewrite orb_false_r; repeat rewrite orb_assoc; reflexivity.

Lemma test_evaluating (s : jsstring) :
  test re_evaluating s = existsb (family EVALUATING) (words s).
Proof.
  apply test_bounded; try reflexivity.
  intros x. cbn [residual].
  unfold family, anyStem. cbn [existsb]. stems.
Qed.

Lemma test_deciding (s : jsstring) :
  test re_deciding s = existsb (family DECIDING) (words s).
Proof.
  apply test_bounded; try reflexivity.
  intros x. cbn [residual].
  unfold family, anyStem. cbn [existsb]. stems.
Qed.

Lemma test_planning (s : jsstring) :
  test re_planning s = existsb (family PLANNING) (words s).
Proof.
  apply test_bounded; try reflexivity.
  intros x. cbn [residual].
  unfold family, anyStem. cbn [existsb]. stems.
Qed.

Lemma test_executing (s : jsstring) :
  test re_executing s = existsb (family EXECUTING) (words s).
Proof.
  apply test_bounded; try reflexivity.
  intros x. cbn [residual].
  unfold family, anyStem, anyWord. cbn [existsb].
  rewrite !after_orb.
  rewrite !(after_after _ _ (fun y => isEmpty y && true)).
  rewrite !after_word.
  rewrite after_stem
    by (intros; apply anySuffix_true; reflexivity).
  change (units "implement" ++ units "ing") with (units "implementing").
  change (units "implement" ++ units "ed") with (units "implemented").
  change (units "writ" ++ units "ing") with (units "writing").
  change (units "writ" ++ units "e") with (units "write").
  change (units "writ" ++ units "ten") with (units "written").
  repeat rewrite orb_false_r. repeat rewrite orb_assoc. reflexivity.
Qed.

(** The classifier is the cascade over the four families. *)
Lemma detect_cascade (text : jsstring) :
  detectReasoningStage text = cascade family text.
Proof.
  unfold detectReasoningStage, cascade, mentions.
  now rewrite test_evaluating, test_executing, test_deciding, test_planning.
Qed.

(* ----------------------------------------------------------------- *)
(** ** The cascade *)

Lemma cascade_mentions (fam : ReasoningStage -> jsstring -> bool)
      (text : jsstring) (st : ReasoningStage) :
  mentions (fam st) text = true ->
  (forall st', priority st < priority st' ->
               mentions (fam st') text = false) ->
  fam ANALYZING = (fun _ => false) ->
  cascade fam text = st.
Proof.
  intros Hst Hup Hnone. unfold cascade.
  assert (Hnot : mentions (fam ANALYZING) text = false).
  { rewrite Hnone. unfold mentions.
    induction (words (toLowerCase text)); simpl; auto. }
  destruct st; simpl in Hup;
    try (rewrite Hnot in Hst; discriminate);
    repeat match goal with
      | |- context [mentions (fam ?s) text] =>
          first [ rewrite Hst
                | rewrite (Hup s) by (simpl; lia) ]
      end; reflexivity.
Qed.

Lemma cascade_none (fam : ReasoningStage -> jsstring -> bool)
      (text : jsstring) :
  (forall st, mentions (fam st) text = false) ->
  cascade fam text = ANALYZING.
Proof.
  intros H. unfold cascade. now rewrite !H.
Qed.

(** The stage the cascade returns is mentioned, and no higher one is. *)
Lemma cascade_sound (fam : ReasoningStage -> jsstring -> bool)
      (text : jsstring) :
  (cascade fam text = ANALYZING
   \/ mentions (fam (cascade fam text)) text = true)
  /\ (forall st', priority (cascade fam text) < priority st' ->
                  mentions (fam st') text = false).
Proof.
  unfold cascade.
  destruct (mentions (fam EVALUATING) text) eqn:H4.
  { split; [now right|]. intros []; simpl; intros; lia. }
  destruct (mentions (fam EXECUTING) text) eqn:H3.
  { split; [now right|]. intros []; simpl; intros; (lia || assumption). }
  destruct (mentions (fam DECIDING) text) eqn:H2.
  { split; [now right|]. intros []; simpl; intros; (lia || assumption). }
  destruct (mentions (fam PLANNING) text) eqn:H1.
  { split; [now right|]. intros []; simpl; intros; (lia || assumption). }
  split; [now left|]. intros []; simpl; intros; (lia || assumption).
Qed.

Lemma sameWord_startsWith (w a b : jsstring) :
  sameWord w (a ++ b) = true -> startsWith a w = true.
Proof.
  revert w. induction a as [|c a IH]; intros w H; simpl; [reflexivity|].
  destruct w as [|d w]; simpl in H; [discriminate|].
  apply andb_true_iff in H as [H1 H2].
  rewrite H1. simpl. now apply IH.
Qed.

(** Every word the patterns count is a keyword of the specification. *)
Lemma family_spec_family (st : ReasoningStage) (w : jsstring) :
  family st w = true -> spec_family st w = true.
Proof.
  destruct st; simpl; try (intros H; exact H).
  unfold anyStem, anyWord. cbn [existsb].
  rewrite !orb_false_r. intros H.
  repeat (apply orb_true_iff in H as [H|H]);
    repeat rewrite orb_true_iff; auto 10.
  - left. right.
    apply (@sameWord_startsWith w (units "implement") (units "ing") H).
  - left. right.
    apply (@sameWord_startsWith w (units "implement") (units "ed") H).
  - left. right.
    apply (@sameWord_startsWith w (units "implement") [] H).
Qed.

Lemma mentions_mono (F G : jsstring -> bool) (text : jsstring) :
  (forall w, F w = true -> G w = true) ->
  mentions F text = true -> mentions G text = true.
Proof.
  intros HFG. unfold mentions. rewrite !existsb_exists.
  intros [w [Hin Hw]]. exists w. auto.
Qed.

Lemma mentions_spec_none (text : jsstring) :
  (forall st, mentions (spec_family st) text = false) ->
  forall st, mentions (family st) text = false.
Proof.
  intros H st. destruct (mentions (family st) text) eqn:E; [|reflexivity].
  rewrite <- (H st). symmetry.
  apply (mentions_mono (family st)); [apply family_spec_family|exact E].
Qed.

(* ----------------------------------------------------------------- *)
(** ** What the specification says of the classifier *)

(** C1, as stated, fails: with the Executing family of the specification
    ([implement*]), the text [select the implementation] holds an Executing
    word and no Evaluating word, and is classified Deciding, not
    Executing. *)
Lemma priority_law_fails_on_implementation :
  let text := units "select the implementation" in
  mentions (spec_family EXECUTING) text = true
  /\ mentions (spec_family EVALUATING) text = false
  /\ detectReasoningStage text = DECIDING.
Proof. vm_compute. repeat split. Qed.

(** C1, amended: the priority cascade, over the families as the patterns
    delimit them (Executing: [execut*] and the words implement,
    implementing, implemented, write, writing, written).  A text with an
    Evaluating word is Evaluating whatever else it holds; a text with a
    word of some family and no word of a higher family gets that family's
    stage; and the text of scenario A is Evaluating. *)
Theorem priority_cascade (text : jsstring) :
  (mentions (family EVALUATING) text = true ->
   detectReasoningStage text = EVALUATING)
  /\ (forall st,
         mentions (family st) text = true ->
         (forall st', priority st < priority st' ->
                      mentions (family st') text = false) ->
         detectReasoningStage text = st)
  /\ classify "I'm analyzing and evaluating this solution" = EVALUATING.
Proof.
  split; [|split].
  - intros H. rewrite detect_cascade. unfold cascade. now rewrite H.
  - intros st Hst Hup. rewrite detect_cascade.
    now apply cascade_mentions.
  - reflexivity.
Qed.

Lemma priority_cascade_witness :
  mentions (family EXECUTING) (units "execute the plan") = true
  /\ mentions (family PLANNING) (units "execute the plan") = true
  /\ detectReasoningStage (units "execute the plan") = EXECUTING.
Proof.
  split; [reflexivity|split; [reflexivity|]].
  apply (proj1 (proj2 (priority_cascade (units "execute the plan")))).
  - reflexivity.
  - intros [] H; simpl in H; try lia; reflexivity.
Defined.

(** C6: the classifier is a total function into the five stages, gives
    equal answers on equal texts, and answers Analyzing on the empty text
    and on every text without a keyword (a word counted by the patterns,
    and so also without a keyword in the specification's wider list). *)
Theorem classifier_total_default :
  detectReasoningStage [] = ANALYZING
  /\ (forall text,
         In (detectReasoningStage text)
            [ANALYZING; PLANNING; DECIDING; EXECUTING; EVALUATING])
  /\ (forall s t, s = t -> detectReasoningStage s = detectReasoningStage t)
  /\ (forall text,
         (forall st, mentions (family st) text = false) ->
         detectReasoningStage text = ANALYZING)
  /\ (forall text,
         (forall st, mentions (spec_family st) text = false) ->
         detectReasoningStage text = ANALYZING).
Proof.
  split; [reflexivity|]. split.
  { intros text. destruct (detectReasoningStage text); simpl; auto 6. }
  split; [now intros s t ->|]. split.
  - intros text H. rewrite detect_cascade. now apply cascade_none.
  - intros text H. rewrite detect_cascade. apply cascade_none.
    now apply mentions_spec_none.
Qed.

Lemma classifier_total_default_witness :
  (forall st, mentions (spec_family st) (units "This is a coding task") = false)
  /\ detectReasoningStage (units "This is a coding task") = ANALYZING.
Proof.
  assert (H : forall st,
             mentions (spec_family st) (units "This is a coding task")
             = false) by (intros []; reflexivity).
  split; [exact H|].
  exact (proj2 (proj2 (proj2 (proj2 classifier_total_default))) _ H).
Defined.

(** C7, as stated, fails: the sentence of the test suite
    [I'll plan out the implementation steps] holds the word
    [implementation] and no Evaluating word, and is classified Planning;
    [it implements] is classified Analyzing. *)
Lemma implement_star_not_executing :
  let text := units "I'll plan out the implementation steps" in
  mentions (spec_family EXECUTING) text = true
  /\ mentions (spec_family EVALUATING) text = false
  /\ detectReasoningStage text = PLANNING
  /\ classify "it implements the idea" = ANALYZING.
Proof. vm_compute. repeat split. Qed.

(** C7, amended: a text without an Evaluating word is classified Executing
    exactly when one of its words begins with [execut] or is one of
    implement, implementing, implemented, write, writing, written. *)
Theorem executing_coverage (text : jsstring) :
  mentions (family EVALUATING) text = false ->
  (detectReasoningStage text = EXECUTING
   <-> mentions (family EXECUTING) text = true).
Proof.
  intros Hno. rewrite detect_cascade. unfold cascade. rewrite Hno.
  destruct (mentions (family EXECUTING) text); [tauto|].
  split; [|discriminate].
  destruct (mentions (family DECIDING) text);
    [discriminate|destruct (mentions (family PLANNING) text); discriminate].
Qed.

Lemma executing_coverage_witness :
  mentions (family EVALUATING) (units "I'm writing the code now") = false
  /\ detectReasoningStage (units "I'm writing the code now") = EXECUTING.
Proof.
  split; [reflexivity|].
  apply (proj2 (executing_coverage (units "I'm writing the code now")
                  eq_refl)).
  reflexivity.
Defined.

(* ----------------------------------------------------------------- *)
(** ** Appending to a text *)

Lemma toLowerCase_app (s t : jsstring) :
  toLowerCase (s ++ t) = toLowerCase s ++ toLowerCase t.
Proof. apply flat_map_app. Qed.

Lemma splitWords_app (x y : jsstring) :
  splitWords (x ++ y)
  = removelast (splitWords x)
    ++ (lastWord x ++ firstWord y) :: tl (splitWords y).
Proof.
  unfold lastWord, firstWord.
  induction x as [|c x IH].
  - simpl. now destruct (splitWords_head y) as [ws ->].
  - change ((c :: x) ++ y) with (c :: (x ++ y)).
    cbn [splitWords]. rewrite IH.
    destruct (splitWords_head x) as [ws ->].
    destruct (isWordChar c).
    + destruct ws as [|w' ws]; reflexivity.
    + reflexivity.
Qed.

Lemma splitWords_last (x : jsstring) :
  splitWords x = removelast (splitWords x) ++ [lastWord x].
Proof.
  unfold lastWord. apply app_removelast_last.
  destruct (splitWords_head x) as [ws ->]. discriminate.
Qed.

Lemma splitWords_first (y : jsstring) :
  splitWords y = firstWord y :: tl (splitWords y).
Proof.
  unfold firstWord. now destruct (splitWords_head y) as [ws ->].
Qed.

Lemma family_nil (st : ReasoningStage) : family st [] = false.
Proof. now destruct st. Qed.

Lemma mentions_splitWords (st : ReasoningStage) (text : jsstring) :
  mentions (family st) text
  = existsb (family st) (splitWords (toLowerCase text)).
Proof. apply existsb_words, family_nil. Qed.

(** The words of [s ++ t]: those of [s] but the last, the joined word,
    those of [t] but the first. *)
Lemma mentions_app (st : ReasoningStage) (s t : jsstring) :
  mentions (family st) (s ++ t)
  = existsb (family st) (removelast (splitWords (toLowerCase s)))
    || family st (lastWord (toLowerCase s) ++ firstWord (toLowerCase t))
    || existsb (family st) (tl (splitWords (toLowerCase t))).
Proof.
  rewrite mentions_splitWords, toLowerCase_app, splitWords_app.
  rewrite existsb_app. simpl. now rewrite orb_assoc.
Qed.

Lemma mentions_left (st : ReasoningStage) (s : jsstring) :
  mentions (family st) s
  = existsb (family st) (removelast (splitWords (toLowerCase s)))
    || family st (lastWord (toLowerCase s)).
Proof.
  rewrite mentions_splitWords.
  rewrite (splitWords_last (toLowerCase s)) at 1.
  rewrite existsb_app. simpl. now rewrite orb_false_r.
Qed.

Lemma mentions_right (st : ReasoningStage) (t : jsstring) :
  mentions (family st) t
  = family st (firstWord (toLowerCase t))
    || existsb (family st) (tl (splitWords (toLowerCase t))).
Proof.
  rewrite mentions_splitWords.
  now rewrite (splitWords_first (toLowerCase t)) at 1.
Qed.

Lemma startsWith_app (stem w v : jsstring) :
  startsWith stem w = true -> startsWith stem (w ++ v) = true.
Proof.
  revert w. induction stem as [|a stem IH]; intros w H; [reflexivity|].
  destruct w as [|c w]; simpl in *; [discriminate|].
  apply andb_true_iff in H as [H1 H2]. rewrite H1. simpl. now apply IH.
Qed.

Lemma anyStem_app (stems : list string) (w v : jsstring) :
  anyStem stems w = true -> anyStem stems (w ++ v) = true.
Proof.
  unfold anyStem. rewrite !existsb_exists.
  intros [st [Hin H]]. exists st. split; [exact Hin|].
  now apply startsWith_app.
Qed.

(** A keyword stays one when letters are added to it, the whole-word
    keywords of the Executing family apart. *)
Lemma family_app (st : ReasoningStage) (w v : jsstring) :
  family st w = true ->
  (st = EXECUTING ->
   anyWord ["implementing"; "implemented"; "implement";
            "writing"; "write"; "written"]%string w
   && negb (isEmpty v) = false) ->
  family st (w ++ v) = true.
Proof.
  intros Hw Hv. destruct st; cbn [family] in *;
    try discriminate; try (now apply anyStem_app).
  specialize (Hv eq_refl).
  apply orb_true_iff in Hw as [Hw|Hw].
  - apply orb_true_iff. left. now apply anyStem_app.
  - rewrite Hw in Hv. cbn [andb] in Hv.
    destruct v; [|discriminate].
    rewrite app_nil_r. apply orb_true_iff. now right.
Qed.

Lemma mentions_persists (st : ReasoningStage) (s t : jsstring) :
  (st = EXECUTING -> lengthensKeyword s t = false) ->
  mentions (family st) s = true ->
  mentions (family st) (s ++ t) = true.
Proof.
  unfold lengthensKeyword. intros Hl.
  rewrite mentions_left, mentions_app. intros H.
  apply orb_true_iff in H as [H|H].
  - now rewrite H.
  - rewrite (@family_app st _ _ H Hl). now rewrite orb_true_r.
Qed.

Lemma mentions_new_word (st : ReasoningStage) (s t : jsstring) :
  startsNewWord s t = true ->
  mentions (family st) (s ++ t)
  = mentions (family st) s || mentions (family st) t.
Proof.
  unfold startsNewWord. intros H.
  rewrite mentions_app, mentions_left, mentions_right.
  apply orb_true_iff in H as [H|H].
  - destruct (lastWord (toLowerCase s)); [|discriminate].
    simpl. rewrite family_nil, orb_false_r. now rewrite orb_assoc.
  - destruct (firstWord (toLowerCase t)); [|discriminate].
    now rewrite app_nil_r, family_nil.
Qed.

Lemma priority_inj (a b : ReasoningStage) :
  priority a = priority b -> a = b.
Proof. destruct a, b; simpl; intros H; (reflexivity || discriminate). Qed.

(** C8, as stated, fails: [I write] is classified Executing; the fragment
    [rs block] holds no keyword; the concatenation [I writers block] holds
    no keyword either, and is classified Analyzing. *)
Lemma appending_loses_write :
  let s := units "I write" in
  let t := units "rs block" in
  forallb (fun st => negb (mentions (spec_family st) t))
          [PLANNING; DECIDING; EXECUTING; EVALUATING] = true
  /\ forallb (fun st => negb (mentions (spec_family st) (s ++ t)))
             [PLANNING; DECIDING; EXECUTING; EVALUATING] = true
  /\ detectReasoningStage s = EXECUTING
  /\ detectReasoningStage (s ++ t) = ANALYZING.
Proof. vm_compute. repeat split. Qed.

(** C8, amended: let [t] hold no keyword.  Then the stage of [s ++ t] is
    the stage of [s], unless it is a stage of higher priority whose keyword
    is in [s ++ t] and in neither [s] nor [t], or unless [s] is Executing
    and [t] lengthens a final word of [s] that is one of implement,
    implementing, implemented, write, writing, written, in which case the
    stage may fall; and it is the stage of [s] whenever the concatenation
    joins no two words. *)
Theorem append_stability (s t : jsstring) :
  (forall st, mentions (family st) t = false) ->
  (detectReasoningStage (s ++ t) = detectReasoningStage s
   \/ (priority (detectReasoningStage s)
       < priority (detectReasoningStage (s ++ t))
       /\ mentions (family (detectReasoningStage (s ++ t))) (s ++ t) = true
       /\ mentions (family (detectReasoningStage (s ++ t))) s = false
       /\ mentions (family (detectReasoningStage (s ++ t))) t = false)
   \/ (lengthensKeyword s t = true
       /\ detectReasoningStage s = EXECUTING
       /\ priority (detectReasoningStage (s ++ t)) < priority EXECUTING))
  /\ (startsNewWord s t = true ->
      detectReasoningStage (s ++ t) = detectReasoningStage s).
Proof.
  intros Ht. rewrite !detect_cascade. split.
  - destruct (cascade_sound family s) as [Hs Hs'].
    destruct (cascade_sound family (s ++ t)) as [Hst Hst'].
    destruct (Nat.lt_trichotomy (priority (cascade family s))
                                (priority (cascade family (s ++ t))))
      as [Hlt|[Heq|Hgt]].
    + right. left. split; [exact Hlt|]. split; [|split].
      * destruct Hst as [Hst|Hst]; [|exact Hst].
        rewrite Hst in Hlt. simpl in Hlt. lia.
      * now apply Hs'.
      * apply Ht.
    + left. symmetry. now apply priority_inj.
    + right. right. specialize (Hst' _ Hgt).
      destruct Hs as [Hs|Hs]; [rewrite Hs in Hgt; simpl in Hgt; lia|].
      destruct (lengthensKeyword s t) eqn:El.
      * split; [reflexivity|].
        destruct (cascade family s) eqn:Ea;
          try (rewrite (@mentions_persists _ s t) in Hst';
               [discriminate|discriminate|exact Hs]).
        split; [reflexivity|exact Hgt].
      * rewrite (@mentions_persists _ s t) in Hst';
          [discriminate|intros _; exact El|exact Hs].
  - intros Hn. unfold cascade.
    now rewrite !(mentions_new_word _ _ _ Hn), !Ht, !orb_false_r.
Qed.

Lemma append_stability_witness :
  let s := units "we pla" in
  let t := units "n ahead" in
  (forall st, mentions (family st) t = false)
  /\ (detectReasoningStage (s ++ t) = detectReasoningStage s
      \/ (priority (detectReasoningStage s)
          < priority (detectReasoningStage (s ++ t))
          /\ mentions (family (detectReasoningStage (s ++ t))) (s ++ t) = true
          /\ mentions (family (detectReasoningStage (s ++ t))) s = false
          /\ mentions (family (detectReasoningStage (s ++ t))) t = false)
      \/ (lengthensKeyword s t = true
          /\ detectReasoningStage s = EXECUTING
          /\ priority (detectReasoningStage (s ++ t)) < priority EXECUTING))
  /\ detectReasoningStage s = ANALYZING
  /\ detectReasoningStage (s ++ t) = PLANNING.
Proof.
  intros s t.
  assert (Ht : forall st, mentions (family st) t = false)
    by (intros []; reflexivity).
  split; [exact Ht|].
  split; [exact (proj1 (append_stability s t Ht))|].
  split; reflexivity.
Defined.

(* ----------------------------------------------------------------- *)
(** ** The turn flags of the console modules *)

Lemma labels_app (a b : list output) : labels (a ++ b) = labels a + labels b.
Proof.
  unfold labels. now rewrite flat_map_app, filter_app, length_app.
Qed.

Lemma labels_raw (ds : list jsstring) :
  labels (map (fun d => Out [Txt d]) ds) = 0.
Proof.
  induction ds as [|d ds IH]; [reflexivity|exact IH].
Qed.

Lemma claudeStream_started (ds : list jsstring)
      (st : ConsoleReasoning.state) :
  ConsoleReasoning.claudeTurnStarted st = true ->
  ConsoleReasoning.performAll (map ConsoleReasoning.ClaudeStream ds) st
  = (st, map (fun d => Out [Txt d]) ds).
Proof.
  intros Hst. induction ds as [|d ds IH]; simpl; [reflexivity|].
  unfold ConsoleReasoning.claudeStream. rewrite Hst. simpl.
  now rewrite IH.
Qed.

Lemma claude_started (ts : list jsstring) (st : Console.state) :
  Console.claudeTurnStarted st = true ->
  Console.claudeAll ts st = (st, map (fun t => OutLine [Txt t]) ts).
Proof.
  intros Hst. induction ts as [|t ts IH]; simpl; [reflexivity|].
  unfold Console.claude. rewrite Hst. simpl. now rewrite IH.
Qed.

(** Whatever else is shown during a turn (reasoning, tool calls,
    messages), the prefix is written with the first text and never
    again before [finishClaudeTurn]. *)
Lemma labels_of_a_turn (cs : list ConsoleReasoning.call)
      (st : ConsoleReasoning.state) :
  existsb ConsoleReasoning.isFinish cs = false ->
  labels (snd (ConsoleReasoning.performAll cs st))
  = (if ConsoleReasoning.claudeTurnStarted st then 0
     else if existsb ConsoleReasoning.isText cs then 1 else 0)
  /\ ConsoleReasoning.claudeTurnStarted
       (fst (ConsoleReasoning.performAll cs st))
     = ConsoleReasoning.claudeTurnStarted st
       || existsb ConsoleReasoning.isText cs.
Proof.
  revert st. induction cs as [|c cs IH]; intros st Hfin.
  - simpl. destruct (ConsoleReasoning.claudeTurnStarted st); auto.
  - simpl in Hfin. apply orb_false_iff in Hfin as [Hc Hcs].
    cbn [ConsoleReasoning.performAll].
    destruct (ConsoleReasoning.perform c st) as [st1 o1] eqn:E1.
    specialize (IH st1 Hcs).
    destruct (ConsoleReasoning.performAll cs st1) as [st2 o2].
    cbn [fst snd] in *. rewrite labels_app.
    destruct IH as [IHl IHs]. rewrite IHl, IHs. clear IHl IHs.
    destruct st as [started active].
    destruct c; try discriminate Hc;
      repeat match goal with b : bool |- _ => destruct b end;
      cbn in E1; inversion E1; subst; cbn;
      try (destruct (existsb ConsoleReasoning.isText cs)); auto.
Qed.

(** C9: within a turn the [Claude] prefix is written exactly once, with
    the first text, and every later text is written raw, both for the
    streamed deltas of [console-reasoning.ts] and for the lines of
    [console.ts], and whatever other output the turn has in between;
    prompting the user resets the flag, so that the first text of the next
    turn carries the prefix again. *)
Theorem turn_label_once :
  (forall st d ds,
      ConsoleReasoning.claudeTurnStarted st = false ->
      snd (ConsoleReasoning.performAll
             (map ConsoleReasoning.ClaudeStream (d :: ds)) st)
      = Out [Newline; ClaudeLabel] :: Out [Txt d]
        :: map (fun x => Out [Txt x]) ds
      /\ labels (snd (ConsoleReasoning.performAll
                        (map ConsoleReasoning.ClaudeStream (d :: ds)) st))
         = 1)
  /\ (forall st t ts,
         Console.claudeTurnStarted st = false ->
         snd (Console.claudeAll (t :: ts) st)
         = OutLine [ClaudeLabel; Txt t]
           :: map (fun x => OutLine [Txt x]) ts)
  /\ (forall st cs,
         ConsoleReasoning.claudeTurnStarted st = false ->
         existsb ConsoleReasoning.isFinish cs = false ->
         existsb ConsoleReasoning.isText cs = true ->
         labels (snd (ConsoleReasoning.performAll cs st)) = 1)
  /\ (forall st d,
         ConsoleReasoning.claudeTurnStarted
           (fst (ConsoleReasoning.promptUser st)) = false
         /\ snd (ConsoleReasoning.claudeStream d
                   (fst (ConsoleReasoning.promptUser st)))
            = [Out [Newline; ClaudeLabel]; Out [Txt d]])
  /\ (forall st t,
         Console.claudeTurnStarted (fst (Console.promptUser st)) = false
         /\ snd (Console.claude t (fst (Console.promptUser st)))
            = [OutLine [ClaudeLabel; Txt t]]).
Proof.
  split; [|split; [|split; [|split]]].
  - intros st d ds Hst.
    assert (E : snd (ConsoleReasoning.performAll
                       (map ConsoleReasoning.ClaudeStream (d :: ds)) st)
                = Out [Newline; ClaudeLabel] :: Out [Txt d]
                  :: map (fun x => Out [Txt x]) ds).
    { cbn [map ConsoleReasoning.performAll ConsoleReasoning.perform].
      unfold ConsoleReasoning.claudeStream at 1. rewrite Hst. cbn [negb].
      rewrite claudeStream_started by reflexivity. reflexivity. }
    split; [exact E|]. rewrite E.
    change (labels ([Out [Newline; ClaudeLabel]; Out [Txt d]]
                    ++ map (fun x => Out [Txt x]) ds) = 1).
    now rewrite labels_app, labels_raw.
  - intros st t ts Hst. cbn [Console.claudeAll].
    unfold Console.claude at 1. rewrite Hst. cbn [negb].
    rewrite claude_started by reflexivity. reflexivity.
  - intros st cs Hst Hfin Htxt.
    rewrite (proj1 (labels_of_a_turn cs st Hfin)).
    now rewrite Hst, Htxt.
  - intros [started active] d. destruct started; split; reflexivity.
  - intros [started] t. destruct started; split; reflexivity.
Qed.

Lemma turn_label_once_witness :
  let hello := units "Hello" in
  let world := units " world" in
  ConsoleReasoning.claudeTurnStarted ConsoleReasoning.initial = false
  /\ snd (ConsoleReasoning.performAll
            [ConsoleReasoning.ClaudeStream hello;
             ConsoleReasoning.ClaudeStream world]
            ConsoleReasoning.initial)
     = [Out [Newline; ClaudeLabel]; Out [Txt hello]; Out [Txt world]].
Proof.
  intros hello world. split; [reflexivity|].
  exact (proj1 (proj1 turn_label_once ConsoleReasoning.initial
                  hello [world] eq_refl)).
Defined.

(** C10: [finishClaudeTurn] on a turn that has not started prints nothing
    and leaves the flag false; a second call in a row changes nothing and
    prints nothing, so the closing newline is printed at most once; and
    in [console-reasoning.ts] the call always clears
    [reasoningBlockActive]. *)
Theorem finishClaudeTurn_idempotent :
  (forall st,
      Console.claudeTurnStarted st = false ->
      Console.finishClaudeTurn st = (st, []))
  /\ (forall st,
         Console.finishClaudeTurn (fst (Console.finishClaudeTurn st))
         = (fst (Console.finishClaudeTurn st), [])
         /\ (snd (Console.finishClaudeTurn st) = []
             \/ snd (Console.finishClaudeTurn st) = [OutLine []]))
  /\ (forall st,
         ConsoleReasoning.claudeTurnStarted st = false ->
         snd (ConsoleReasoning.finishClaudeTurn st) = []
         /\ ConsoleReasoning.claudeTurnStarted
              (fst (ConsoleReasoning.finishClaudeTurn st)) = false)
  /\ (forall st,
         ConsoleReasoning.finishClaudeTurn
           (fst (ConsoleReasoning.finishClaudeTurn st))
         = (fst (ConsoleReasoning.finishClaudeTurn st), [])
         /\ (snd (ConsoleReasoning.finishClaudeTurn st) = []
             \/ snd (ConsoleReasoning.finishClaudeTurn st) = [OutLine []]))
  /\ (forall st,
         ConsoleReasoning.reasoningBlockActive
           (fst (ConsoleReasoning.finishClaudeTurn st)) = false).
Proof.
  split; [|split; [|split; [|split]]].
  - intros [started] H. simpl in H. subst. reflexivity.
  - intros [[|]]; split; auto.
  - intros [started active] H. simpl in H. subst. split; reflexivity.
  - intros [[|] active]; split; auto.
  - intros [[|] active]; reflexivity.
Qed.

Lemma finishClaudeTurn_idempotent_witness :
  ConsoleReasoning.claudeTurnStarted ConsoleReasoning.initial = false
  /\ snd (ConsoleReasoning.finishClaudeTurn ConsoleReasoning.initial) = []
  /\ ConsoleReasoning.claudeTurnStarted
       (fst (ConsoleReasoning.finishClaudeTurn ConsoleReasoning.initial))
     = false.
Proof.
  split; [reflexivity|].
  exact (proj1 (proj2 (proj2 finishClaudeTurn_idempotent))
           ConsoleReasoning.initial eq_refl).
Defined.

(* ----------------------------------------------------------------- *)
(** ** The dispatcher and the loop *)

Section AgentFacts.

Import Agent.

Variables World Value : Type.
Variable reg : ToolRegistry World Value.

Local Abbreviation state := (Agent.state World Value).
Local Abbreviation turn := (Agent.turn Value).

Lemma dispatchAll_app (calls1 calls2 : list (ToolUse Value)) (w : World) :
  dispatchAll reg (calls1 ++ calls2) w
  = let '(os1, w1, n1) := dispatchAll reg calls1 w in
    let '(os2, w2, n2) := dispatchAll reg calls2 w1 in
    (os1 ++ os2, w2, n1 ++ n2).
Proof.
  revert w. induction calls1 as [|u calls1 IH]; intros w; simpl.
  - now destruct (dispatchAll reg calls2 w) as [[os2 w2] n2].
  - destruct (dispatch reg u w) as [[o w1] n1].
    rewrite IH.
    destruct (dispatchAll reg calls1 w1) as [[os1 w1'] n1'].
    destruct (dispatchAll reg calls2 w1') as [[os2 w2] n2].
    now rewrite app_assoc.
Qed.

Lemma dispatch_id (u : ToolUse Value) (w : World) :
  toolUseId (fst (fst (dispatch reg u w))) = id u.
Proof.
  unfold dispatch. destruct (lookup reg (name u)) as [t|]; [|reflexivity].
  destruct (input u) as [v|m]; [|reflexivity].
  now destruct (Execute t v w) as [[s|m] w'].
Qed.

(** The registry finds no tool under a name that no tool bears, and under
    a name that some tool bears, the first one that does. *)
Lemma lookup_absent (nm : jsstring) :
  (forall t, In t reg -> ParamName t <> nm) -> lookup reg nm = None.
Proof.
  unfold lookup. induction reg as [|t0 reg' IH]; intros H; simpl.
  - reflexivity.
  - unfold sameName at 1.
    destruct (jsstring_eq_dec (ParamName t0) nm) as [E|_].
    + exfalso. apply (H t0); [now left|exact E].
    + apply IH. intros t Ht. apply H. now right.
Qed.

Lemma lookup_first (nm : jsstring) (before after : ToolRegistry World Value)
      (t : ToolDefinition World Value) :
  reg = before ++ t :: after ->
  ParamName t = nm ->
  (forall t', In t' before -> ParamName t' <> nm) ->
  lookup reg nm = Some t.
Proof.
  intros -> Ht. unfold lookup.
  induction before as [|t0 before' IH]; intros H; simpl.
  - unfold sameName. now destruct (jsstring_eq_dec (ParamName t) nm).
  - unfold sameName at 1.
    destruct (jsstring_eq_dec (ParamName t0) nm) as [E|_].
    + exfalso. apply (H t0); [now left|exact E].
    + apply IH. intros t' Ht'. apply H. now right.
Qed.

(** The calls that the loop takes from a response are its tool-use
    blocks, in the order of the response, and so are the calls of the turn
    it keeps. *)
Lemma requested_filter (col : list (received Value))
      (us : list (ToolUse Value)) :
  filter (@isToolUse Value) col = map (@gotToolUse Value) us ->
  requested col = us.
Proof.
  revert us. induction col as [|b col IH]; intros us H.
  - destruct us; [reflexivity|discriminate H].
  - destruct b as [v|v|u]; cbn [filter isToolUse] in H;
      unfold requested; cbn [flat_map]; fold (requested col).
    + now apply IH.
    + now apply IH.
    + destruct us as [|u' us']; [discriminate H|].
      cbn [map] in H. injection H as -> H. cbn [app].
      f_equal. now apply IH.
Qed.

Lemma kept_calls (col : list (received Value)) :
  filter (@isCall Value) (kept col)
  = map (@tool_use Value) (requested col).
Proof.
  induction col as [|b col IH]; [reflexivity|].
  unfold kept, requested in *. cbn [flat_map].
  destruct b; cbn [app filter isCall map]; now rewrite ?IH.
Qed.

Lemma dispatchAll_ids (calls : list (ToolUse Value)) (w : World) :
  map toolUseId (fst (fst (dispatchAll reg calls w))) = map (@id Value) calls.
Proof.
  revert w. induction calls as [|u calls IH]; intros w; simpl; [reflexivity|].
  pose proof (dispatch_id u w) as Hu.
  destruct (dispatch reg u w) as [[o w1] n1].
  specialize (IH w1).
  destruct (dispatchAll reg calls w1) as [[os w2] n2].
  simpl in *. now rewrite Hu, IH.
Qed.

Lemma useIds_kept (col : list (received Value)) :
  useIds (kept col) = map (@id Value) (requested col).
Proof.
  induction col as [|b col IH]; simpl; [reflexivity|].
  unfold useIds in *. rewrite flat_map_app, IH.
  now destruct b.
Qed.

Lemma resultIds_kept (col : list (received Value)) :
  resultIds (kept col) = [].
Proof.
  induction col as [|b col IH]; simpl; [reflexivity|].
  unfold resultIds in *. rewrite flat_map_app, IH.
  now destruct b.
Qed.

Lemma resultIds_results (os : list ToolOutcome) :
  resultIds (map (@resultBlock Value) os) = map toolUseId os.
Proof.
  induction os as [|o os IH]; simpl; [reflexivity|].
  unfold resultIds in *. simpl. now rewrite IH.
Qed.

Lemma lastTurn_app (prev : option turn) (conv : list turn) (t : turn) :
  lastTurn prev (conv ++ [t]) = Some t.
Proof.
  revert prev. induction conv as [|t' conv IH]; intros prev; simpl; auto.
Qed.

Lemma linked_app (prev : option turn) (conv : list turn) (t : turn) :
  linked prev (conv ++ [t])
  <-> linked prev conv /\ answers (lastTurn prev conv) t.
Proof.
  revert prev. induction conv as [|t' conv IH]; intros prev; simpl.
  - tauto.
  - rewrite IH. tauto.
Qed.

Lemma linked_at (prev : option turn) (before after : list turn) (t : turn) :
  linked prev (before ++ t :: after) -> answers (lastTurn prev before) t.
Proof.
  revert prev. induction before as [|t' before IH]; intros prev; simpl.
  - tauto.
  - intros [_ H]. now apply IH.
Qed.

Lemma lastTurn_some (before : list turn) (p : turn) :
  lastTurn None before = Some p -> exists before', before = before' ++ [p].
Proof.
  induction before as [|q before' _] using rev_ind.
  - discriminate.
  - rewrite lastTurn_app. intros [= ->]. now exists before'.
Qed.

(** Every step keeps the conversation linked and only adds to it. *)
Lemma step_consistent (st st' : state) (ev : event Value) :
  step reg st ev = Some st' ->
  consistent st ->
  consistent st'
  /\ exists added, conversation st' = conversation st ++ added.
Proof.
  unfold step, consistent. intros Hstep [Hl Hd].
  destruct (current st) as [| |col|calls] eqn:Hc; destruct ev;
    try discriminate Hstep.
  - inversion Hstep; subst; clear Hstep. simpl. split.
    + split; [|discriminate]. apply linked_app. split; [exact Hl|].
      unfold answers. simpl. now left.
    + eexists. reflexivity.
  - inversion Hstep; subst; clear Hstep. simpl. split.
    + split; [exact Hl|discriminate].
    + exists []. now rewrite app_nil_r.
  - inversion Hstep; subst; clear Hstep. simpl. split.
    + split; [exact Hl|discriminate].
    + exists []. now rewrite app_nil_r.
  - inversion Hstep; subst; clear Hstep. simpl. split.
    + split; [exact Hl|discriminate].
    + exists []. now rewrite app_nil_r.
  - assert (Hlk : linked None
                    (conversation st
                     ++ [{| turnRole := Assistant; blocks := kept col |}])).
    { apply linked_app. split; [exact Hl|].
      unfold answers. simpl. apply resultIds_kept. }
    destruct (requested col) as [|u us] eqn:Hreq;
      inversion Hstep; subst; clear Hstep; simpl; split;
      try (eexists; reflexivity).
    + split; [exact Hlk|discriminate].
    + split; [exact Hlk|]. intros calls [= <-].
      eexists. split; [apply lastTurn_app|]. simpl.
      split; [reflexivity|]. now rewrite useIds_kept, Hreq.
  - inversion Hstep; subst; clear Hstep. simpl. split.
    + split; [exact Hl|discriminate].
    + exists []. now rewrite app_nil_r.
  - pose proof (dispatchAll_ids calls (world st)) as Hids.
    destruct (dispatchAll reg calls (world st)) as [[os w'] ns].
    inversion Hstep; subst; clear Hstep. simpl in *. split.
    + split; [|discriminate]. apply linked_app. split; [exact Hl|].
      unfold answers. simpl. right.
      destruct (Hd calls eq_refl) as [p [Hp [Hrole Huse]]].
      exists p. split; [exact Hp|]. split; [exact Hrole|].
      now rewrite resultIds_results, Hids, Huse.
    + eexists. reflexivity.
Qed.

Lemma run_consistent (evs : list (event Value)) (st st' : state) :
  run reg st evs = Some st' ->
  consistent st ->
  consistent st'
  /\ exists added, conversation st' = conversation st ++ added.
Proof.
  revert st. induction evs as [|ev evs IH]; intros st Hrun Hst; simpl in Hrun.
  - inversion Hrun; subst. split; [exact Hst|].
    exists []. now rewrite app_nil_r.
  - destruct (step reg st ev) as [st1|] eqn:Hstep; [|discriminate].
    destruct (@step_consistent st st1 ev Hstep Hst) as [H1 [a1 E1]].
    destruct (IH _ Hrun H1) as [H2 [a2 E2]].
    split; [exact H2|]. exists (a1 ++ a2).
    now rewrite E2, E1, app_assoc.
Qed.

Lemma run_app (evs1 evs2 : list (event Value)) (st : state) :
  run reg st (evs1 ++ evs2)
  = match run reg st evs1 with
    | Some st1 => run reg st1 evs2
    | None => None
    end.
Proof.
  revert st. induction evs1 as [|ev evs1 IH]; intros st; simpl; auto.
  destruct (step reg st ev); auto.
Qed.

Lemma start_consistent (w : World) : consistent (start Value w).
Proof.
  split; [exact I|]. intros calls H. discriminate H.
Qed.

End AgentFacts.

(* ----------------------------------------------------------------- *)
(** ** What the specification says of the dispatcher and the loop *)

Section AgentClaims.

Import Agent.

Variables World Value : Type.
Variable reg : ToolRegistry World Value.

Local Abbreviation state := (Agent.state World Value).

Lemma run_blocks (bs : list (received Value)) (st : state)
      (col : list (received Value)) (rest : list (event Value)) :
  current st = Streaming col ->
  run reg st (map (@BlockClosed Value) bs ++ rest)
  = run reg {| current := Streaming (col ++ bs);
               conversation := conversation st;
               world := world st; shown := shown st |} rest.
Proof.
  revert st col. induction bs as [|b bs IH]; intros st col Hc.
  - rewrite app_nil_r. destruct st; simpl in *. now subst.
  - cbn [map app run]. unfold step at 1. rewrite Hc.
    erewrite IH by reflexivity. cbn [conversation world shown].
    now rewrite <- app_assoc.
Qed.

(** C2: the tool calls of one assistant turn are dispatched in the order
    of the stream and one at a time: the call after [calls1] starts in the
    world, and after the notifications, that [calls1] left, and the calls
    after it start where it ended; the outcomes carry the identifiers of
    the calls in the same order.  And when the response that ends holds
    the tool-use blocks [us], in this order among its other blocks, the
    loop appends the assistant turn, whose calls are [us], runs these calls
    from the first to the last in the world it is in, and appends a user
    turn that holds one [tool_result] for each, with the identifier, the
    content and the error flag of its outcome, in the order of [us]; the
    world and the notifications are then those that this run left. *)
Theorem sequential_dispatch
        (calls1 : list (ToolUse Value)) (u : ToolUse Value)
        (calls2 : list (ToolUse Value)) (w : World) :
  dispatchAll reg (calls1 ++ u :: calls2) w
  = (let '(os1, w1, n1) := dispatchAll reg calls1 w in
     let '(o, w2, n) := dispatch reg u w1 in
     let '(os2, w3, n2) := dispatchAll reg calls2 w2 in
     (os1 ++ o :: os2, w3, n1 ++ n ++ n2))
  /\ (forall calls w0,
         map toolUseId (fst (fst (dispatchAll reg calls w0)))
         = map (@id Value) calls)
  /\ (forall (st : state) col us,
         current st = Streaming col ->
         filter (@isToolUse Value) col = map (@gotToolUse Value) us ->
         us <> [] ->
         exists st' a r,
           run reg st [EndOfStream; ToolsRun] = Some st'
           /\ current st' = Requesting
           /\ conversation st' = conversation st ++ [a; r]
           /\ a = {| turnRole := Assistant; blocks := kept col |}
           /\ filter (@isCall Value) (blocks a) = map (@tool_use Value) us
           /\ turnRole r = User
           /\ blocks r
              = map (fun o =>
                       tool_result (toolUseId o) (content o) (isError o))
                    (fst (fst (dispatchAll reg us (world st))))
           /\ resultIds (blocks r) = map (@id Value) us
           /\ world st' = snd (fst (dispatchAll reg us (world st)))
           /\ shown st' = shown st ++ snd (dispatchAll reg us (world st))).
Proof.
  split; [|split].
  - rewrite dispatchAll_app. cbn [dispatchAll].
    destruct (dispatchAll reg calls1 w) as [[os1 w1] n1].
    destruct (dispatch reg u w1) as [[o w2] n].
    now destruct (dispatchAll reg calls2 w2) as [[os2 w3] n2].
  - apply dispatchAll_ids.
  - intros st col us Hc Hus Hne.
    pose proof (@requested_filter _ col us Hus) as Hr.
    cbn [run]. unfold step at 1. rewrite Hc, Hr.
    destruct us as [|c cs]; [congruence|].
    unfold step. cbn [current conversation world shown].
    pose proof (dispatchAll_ids reg (c :: cs) (world st)) as Hids.
    destruct (dispatchAll reg (c :: cs) (world st)) as [[os w'] ns].
    eexists. eexists. eexists. split; [reflexivity|].
    cbn [current conversation world shown fst snd].
    split; [reflexivity|]. split; [now rewrite <- app_assoc|].
    split; [reflexivity|]. cbn [blocks turnRole].
    split; [now rewrite kept_calls, Hr|].
    split; [reflexivity|]. split; [reflexivity|].
    split; [|split; reflexivity].
    cbn [fst] in Hids. rewrite <- Hids. apply resultIds_results.
Qed.

(** C3, as amended: in every state the loop reaches, a tool result stands
    in a user turn only, that turn comes right after an assistant turn,
    and its tool results answer the tool calls of that assistant turn one
    for one and in order (the identifiers of the results are those of the
    calls, in the same order); so the identifier of a result is that of at
    least one tool call of that turn, and of exactly one when the
    identifiers of the calls of that turn are distinct.  And the
    conversation of every earlier state of the run is a prefix of the
    present one. *)
Theorem conversation_invariant
        (w : World) (evs : list (event Value)) (st : state) :
  run reg (start Value w) evs = Some st ->
  (forall before t after i r e,
      conversation st = before ++ t :: after ->
      In (tool_result i r e) (blocks t) ->
      turnRole t = User
      /\ exists before' p,
          before = before' ++ [p]
          /\ turnRole p = Assistant
          /\ resultIds (blocks t) = useIds (blocks p)
          /\ 1 <= count_occ jsstring_eq_dec (useIds (blocks p)) i
          /\ (NoDup (useIds (blocks p)) ->
              count_occ jsstring_eq_dec (useIds (blocks p)) i = 1))
  /\ (forall evs1 evs2 st1,
         evs = evs1 ++ evs2 ->
         run reg (start Value w) evs1 = Some st1 ->
         exists added, conversation st = conversation st1 ++ added).
Proof.
  intros Hrun. split.
  - destruct (run_consistent reg evs Hrun (start_consistent Value w))
      as [[Hl _] _].
    intros before t after i r e Hconv Hin.
    rewrite Hconv in Hl. apply linked_at in Hl.
    assert (Hi : In i (resultIds (blocks t))).
    { unfold resultIds. apply in_flat_map.
      exists (tool_result i r e). split; [exact Hin|now left]. }
    unfold answers in Hl. destruct (turnRole t).
    + split; [reflexivity|].
      destruct Hl as [Hl|[p [Hp [Hrole Hres]]]].
      * rewrite Hl in Hi. contradiction.
      * destruct (lastTurn_some _ Hp) as [before' ->].
        exists before', p. split; [reflexivity|]. split; [exact Hrole|].
        split; [exact Hres|].
        rewrite Hres in Hi. split.
        -- now apply (proj1 (count_occ_In jsstring_eq_dec _ _)).
        -- intros Hnd.
           now apply (proj1 (NoDup_count_occ' jsstring_eq_dec _)).
    + rewrite Hl in Hi. contradiction.
  - intros evs1 evs2 st1 -> Hrun1.
    rewrite run_app, Hrun1 in Hrun.
    destruct (run_consistent reg evs1 Hrun1 (start_consistent Value w))
      as [H1 _].
    now destruct (run_consistent reg evs2 Hrun H1) as [_ Hadd].
Qed.

(** C4: an error of the transport while the loop is requesting or
    streaming ends the user turn: the error is shown, the loop awaits
    input again, and the conversation is what it was before the request,
    also when blocks of the response had already been finalized. *)
Theorem transport_error_atomic (st : state) (m : jsstring) :
  (current st = Requesting \/ (exists col, current st = Streaming col) ->
   exists st',
     step reg st (TransportError m) = Some st'
     /\ current st' = AwaitingInput
     /\ conversation st' = conversation st
     /\ world st' = world st
     /\ shown st' = shown st ++ [errorRaised m])
  /\ (forall bs,
         current st = Requesting ->
         exists st',
           run reg st (RequestAccepted
                       :: map (@BlockClosed Value) bs
                       ++ [TransportError m]) = Some st'
           /\ current st' = AwaitingInput
           /\ conversation st' = conversation st
           /\ shown st' = shown st ++ [errorRaised m]).
Proof.
  split.
  - intros [Hc|[col Hc]]; unfold step; rewrite Hc;
      eexists; (split; [reflexivity|]); simpl; auto.
  - intros bs Hc. cbn [run]. unfold step at 1. rewrite Hc.
    erewrite (@run_blocks bs _ []) by reflexivity.
    cbn. eexists. split; [reflexivity|]. simpl. auto.
Qed.

(** C5: dispatch produces an outcome for every tool call, under the
    identifier of the call.  For a name that no tool of the registry bears
    the outcome is the error [tool not found:] followed by the name, and
    nothing runs.  For the name of a registered tool (the first of that
    name): when the tool's [Execute] rejects, the outcome is the failure
    message, as an error; when it resolves, the returned string; when the
    input of the call did not parse, the description of that failure, as
    an error, the tool not being invoked.  In every case the loop appends
    a user turn with one [tool_result] for each pending call, holding the
    identifier, the content and the error flag of its outcome, and goes on
    to the next request, which is accepted. *)
Theorem dispatch_total (u : ToolUse Value) (w : World) :
  toolUseId (fst (fst (dispatch reg u w))) = id u
  /\ ((forall t, In t reg -> ParamName t <> name u) ->
      dispatch reg u w
      = ({| toolUseId := id u;
            content := units "tool not found: " ++ name u;
            isError := true |}, w, []))
  /\ (forall before t after,
         reg = before ++ t :: after ->
         ParamName t = name u ->
         (forall t', In t' before -> ParamName t' <> name u) ->
         (forall v m w',
             input u = structured v ->
             Execute t v w = (Thrown m, w') ->
             dispatch reg u w
             = ({| toolUseId := id u; content := m; isError := true |}, w',
                [toolStarted (name u); toolFinished (name u) false]))
         /\ (forall v s w',
                input u = structured v ->
                Execute t v w = (Returned s, w') ->
                dispatch reg u w
                = ({| toolUseId := id u; content := s; isError := false |},
                   w',
                   [toolStarted (name u); toolFinished (name u) true]))
         /\ (forall m,
                input u = malformed m ->
                dispatch reg u w
                = ({| toolUseId := id u; content := m; isError := true |},
                   w,
                   [toolStarted (name u); toolFinished (name u) false])))
  /\ (forall (st : state) calls,
         current st = Dispatching calls ->
         exists st' st'',
           step reg st (ToolsRun) = Some st'
           /\ current st' = Requesting
           /\ conversation st'
              = conversation st
                ++ [{| turnRole := User;
                       blocks :=
                         map (fun o =>
                                tool_result (toolUseId o) (content o)
                                            (isError o))
                             (fst (fst (dispatchAll reg calls
                                                    (world st)))) |}]
           /\ step reg st' (RequestAccepted) = Some st''
           /\ current st'' = Streaming []
           /\ conversation st'' = conversation st')
  /\ (forall (st : state),
         current st = Dispatching [u] ->
         world st = w ->
         exists st',
           step reg st (ToolsRun) = Some st'
           /\ current st' = Requesting
           /\ conversation st'
              = conversation st
                ++ [{| turnRole := User;
                       blocks :=
                         [tool_result
                            (id u)
                            (content (fst (fst (dispatch reg u w))))
                            (isError (fst (fst (dispatch reg u w))))] |}]).
Proof.
  split; [apply dispatch_id|]. split; [|split; [|split]].
  - intros H. unfold dispatch. now rewrite (@lookup_absent _ _ reg _ H).
  - intros before t after Hreg Ht Hfirst.
    pose proof (@lookup_first _ _ reg (name u) before after t Hreg Ht Hfirst)
      as Hl.
    split; [|split].
    + intros v m w' Hv He. unfold dispatch. now rewrite Hl, Hv, He.
    + intros v s w' Hv He. unfold dispatch. now rewrite Hl, Hv, He.
    + intros m Hv. unfold dispatch. now rewrite Hl, Hv.
  - intros st calls Hc. unfold step at 1. rewrite Hc.
    destruct (dispatchAll reg calls (world st)) as [[os w1] ns].
    eexists. eexists. split; [reflexivity|].
    split; [reflexivity|]. split; [reflexivity|].
    split; [reflexivity|]. split; reflexivity.
  - intros st Hc Hw. unfold step. rewrite Hc, Hw. cbn [dispatchAll].
    pose proof (dispatch_id reg u w) as Hid.
    destruct (dispatch reg u w) as [[o w1] ns].
    cbn [fst] in *. eexists. split; [reflexivity|].
    split; [reflexivity|]. cbn [conversation map].
    unfold resultBlock. now rewrite Hid.
Qed.

End AgentClaims.

(* ----------------------------------------------------------------- *)
(** ** The loop on the small registry *)

Lemma sequential_dispatch_witness :
  Agent.dispatchAll Scenario.registry [Scenario.callA; Scenario.callB] []
  = ([{| Agent.toolUseId := units "toolu_A";
         Agent.content := units "contents";
         Agent.isError := false |};
      {| Agent.toolUseId := units "toolu_B";
         Agent.content := units "exit status 1";
         Agent.isError := true |}],
     [units "read_file"; units "bash"],
     [Agent.toolStarted (units "read_file");
      Agent.toolFinished (units "read_file") true;
      Agent.toolStarted (units "bash");
      Agent.toolFinished (units "bash") false])
  /\ exists st' a r,
      Agent.run Scenario.registry Scenario.streamed
                [Agent.EndOfStream; Agent.ToolsRun] = Some st'
      /\ Agent.current st' = Agent.Requesting
      /\ Agent.conversation st'
         = Agent.conversation Scenario.streamed ++ [a; r]
      /\ a = {| Agent.turnRole := Agent.Assistant;
                Agent.blocks :=
                  [Agent.tool_use Scenario.callA;
                   Agent.text (units "and then");
                   Agent.tool_use Scenario.callB] |}
      /\ filter (@Agent.isCall unit) (Agent.blocks a)
         = [Agent.tool_use Scenario.callA; Agent.tool_use Scenario.callB]
      /\ Agent.turnRole r = Agent.User
      /\ Agent.blocks r
         = [Agent.tool_result (units "toolu_A") (units "contents") false;
            Agent.tool_result (units "toolu_B") (units "exit status 1")
                              true]
      /\ Agent.resultIds (Agent.blocks r)
         = [units "toolu_A"; units "toolu_B"]
      /\ Agent.world st' = [units "read_file"; units "bash"]
      /\ Agent.shown st'
         = [Agent.bannerShown;
            Agent.toolStarted (units "read_file");
            Agent.toolFinished (units "read_file") true;
            Agent.toolStarted (units "bash");
            Agent.toolFinished (units "bash") false].
Proof.
  assert (Hne : [Scenario.callA; Scenario.callB] <> [])
    by (intros H; discriminate H).
  split.
  - exact (proj1 (sequential_dispatch Scenario.registry
                    [Scenario.callA] Scenario.callB [] [])).
  - exact (proj2 (proj2 (sequential_dispatch Scenario.registry
                           [] Scenario.callA [] []))
             Scenario.streamed _ [Scenario.callA; Scenario.callB]
             eq_refl eq_refl Hne).
Defined.

Lemma conversation_invariant_witness :
  Agent.run Scenario.registry (Agent.start unit []) Scenario.session
  = Some Scenario.ended
  /\ (forall before t after i r e,
         Agent.conversation Scenario.ended = before ++ t :: after ->
         In (Agent.tool_result i r e) (Agent.blocks t) ->
         Agent.turnRole t = Agent.User
         /\ exists before' p,
             before = before' ++ [p]
             /\ Agent.turnRole p = Agent.Assistant
             /\ Agent.resultIds (Agent.blocks t)
                = Agent.useIds (Agent.blocks p)
             /\ 1 <= count_occ Agent.jsstring_eq_dec
                               (Agent.useIds (Agent.blocks p)) i
             /\ (NoDup (Agent.useIds (Agent.blocks p)) ->
                 count_occ Agent.jsstring_eq_dec
                           (Agent.useIds (Agent.blocks p)) i = 1)).
Proof.
  assert (Hrun : Agent.run Scenario.registry (Agent.start unit [])
                           Scenario.session
                 = Some Scenario.ended) by (vm_compute; reflexivity).
  split; [exact Hrun|].
  exact (proj1 (conversation_invariant Scenario.registry []
                  Scenario.session Hrun)).
Defined.

(** When a response gives two tool calls the same identifier, the loop
    reaches a conversation in which a tool result matches two tool calls
    of the assistant turn before it, not exactly one. *)
Lemma repeated_identifier_matches_twice :
  let p := {| Agent.turnRole := Agent.Assistant;
              Agent.blocks := [Agent.tool_use Scenario.callA;
                               Agent.tool_use Scenario.callA] |} in
  let t := {| Agent.turnRole := Agent.User;
              Agent.blocks :=
                [Agent.tool_result (units "toolu_A") (units "contents")
                                   false;
                 Agent.tool_result (units "toolu_A") (units "contents")
                                   false] |} in
  Agent.run Scenario.registry (Agent.start unit []) Scenario.repeated
  = Some Scenario.answeredTwice
  /\ Agent.conversation Scenario.answeredTwice
     = [{| Agent.turnRole := Agent.User;
           Agent.blocks := [Agent.text (units "what is in the file?")] |};
        p; t]
  /\ In (Agent.tool_result (units "toolu_A") (units "contents") false)
        (Agent.blocks t)
  /\ count_occ Agent.jsstring_eq_dec (Agent.useIds (Agent.blocks p))
               (units "toolu_A") = 2.
Proof.
  cbv zeta. split; [vm_compute; reflexivity|].
  split; [vm_compute; reflexivity|].
  split; [left; reflexivity|].
  vm_compute. reflexivity.
Qed.

Lemma transport_error_atomic_witness :
  Agent.current Scenario.asked = Agent.Requesting
  /\ exists st',
      Agent.step Scenario.registry Scenario.asked
                 (Agent.TransportError (units "socket hang up"))
      = Some st'
      /\ Agent.current st' = Agent.AwaitingInput
      /\ Agent.conversation st' = Agent.conversation Scenario.asked
      /\ Agent.world st' = Agent.world Scenario.asked
      /\ Agent.shown st'
         = Agent.shown Scenario.asked
           ++ [Agent.errorRaised (units "socket hang up")].
Proof.
  split; [reflexivity|].
  exact (proj1 (transport_error_atomic Scenario.registry Scenario.asked
                  (units "socket hang up"))
           (or_introl eq_refl)).
Defined.

Lemma dispatch_total_witness :
  (forall t, In t Scenario.registry ->
             Agent.ParamName t <> Agent.name Scenario.frobnicate)
  /\ Agent.dispatch Scenario.registry Scenario.frobnicate []
     = ({| Agent.toolUseId := units "toolu_C";
           Agent.content := units "tool not found: frobnicate";
           Agent.isError := true |}, [], [])
  /\ Agent.dispatch Scenario.registry Scenario.callB []
     = ({| Agent.toolUseId := units "toolu_B";
           Agent.content := units "exit status 1";
           Agent.isError := true |},
        [units "bash"],
        [Agent.toolStarted (units "bash");
         Agent.toolFinished (units "bash") false])
  /\ Agent.dispatch Scenario.registry Scenario.garbled []
     = ({| Agent.toolUseId := units "toolu_D";
           Agent.content := units "Unexpected end of JSON input";
           Agent.isError := true |},
        [],
        [Agent.toolStarted (units "read_file");
         Agent.toolFinished (units "read_file") false])
  /\ exists st' st'',
      Agent.step Scenario.registry Scenario.pending Agent.ToolsRun
      = Some st'
      /\ Agent.current st' = Agent.Requesting
      /\ Agent.conversation st'
         = Agent.conversation Scenario.pending
           ++ [{| Agent.turnRole := Agent.User;
                  Agent.blocks :=
                    [Agent.tool_result
                       (units "toolu_C")
                       (units "tool not found: frobnicate") true;
                     Agent.tool_result
                       (units "toolu_B") (units "exit status 1") true;
                     Agent.tool_result
                       (units "toolu_D")
                       (units "Unexpected end of JSON input") true] |}]
      /\ Agent.step Scenario.registry st' Agent.RequestAccepted = Some st''
      /\ Agent.current st'' = Agent.Streaming []
      /\ Agent.conversation st'' = Agent.conversation st'.
Proof.
  assert (Habsent : forall t, In t Scenario.registry ->
                      Agent.ParamName t
                      <> Agent.name Scenario.frobnicate).
  { intros t [<-|[<-|[]]] H; vm_compute in H; discriminate H. }
  assert (Hbash : forall t', In t' [Scenario.recording
                                      "read_file"
                                      (Agent.Returned (units "contents"))] ->
                    Agent.ParamName t' <> Agent.name Scenario.callB).
  { intros t [<-|[]] H; vm_compute in H; discriminate H. }
  assert (Hread : forall t' : Agent.ToolDefinition Scenario.journal unit,
             In t' [] ->
             Agent.ParamName t' <> Agent.name Scenario.garbled).
  { intros t []. }
  split; [exact Habsent|]. split; [|split; [|split]].
  - exact (proj1 (proj2 (dispatch_total Scenario.registry
                           Scenario.frobnicate [])) Habsent).
  - exact (proj1 (proj1 (proj2 (proj2 (dispatch_total Scenario.registry
                                         Scenario.callB [])))
                    [Scenario.recording
                       "read_file" (Agent.Returned (units "contents"))]
                    (Scenario.recording
                       "bash" (Agent.Thrown (units "exit status 1")))
                    [] eq_refl eq_refl Hbash)
             tt (units "exit status 1") [units "bash"] eq_refl eq_refl).
  - exact (proj2 (proj2 (proj1 (proj2 (proj2 (dispatch_total
                                                Scenario.registry
                                                Scenario.garbled [])))
                           []
                           (Scenario.recording
                              "read_file"
                              (Agent.Returned (units "contents")))
                           [Scenario.recording
                              "bash"
                              (Agent.Thrown (units "exit status 1"))]
                           eq_refl eq_refl Hread))
             (units "Unexpected end of JSON input") eq_refl).
  - exact (proj1 (proj2 (proj2 (proj2 (dispatch_total Scenario.registry
                                         Scenario.frobnicate []))))
             Scenario.pending _ eq_refl).
Defined.

(* ----------------------------------------------------------------- *)
(** ** Further properties of the classifier *)

Lemma lowerUnit_lower (c : N) : flat_map lowerUnit (lowerUnit c) = lowerUnit c.
Proof.
  unfold lowerUnit.
  destruct (N.leb_spec 65 c), (N.leb_spec c 90); cbn [andb];
    try (destruct (N.eqb_spec c 304) as [->|H304]; [reflexivity|];
         destruct (N.eqb_spec c 8490) as [->|H8490]; [reflexivity|]);
    cbn [flat_map app]; unfold lowerUnit;
    repeat match goal with
      | |- context [N.leb ?a ?b] => destruct (N.leb_spec a b); try lia
      | |- context [N.eqb ?a ?b] => destruct (N.eqb_spec a b); try lia
      end; cbn [andb]; reflexivity.
Qed.

Lemma toLowerCase_idempotent (s : jsstring) :
  toLowerCase (toLowerCase s) = toLowerCase s.
Proof.
  unfold toLowerCase. induction s as [|c s IH]; [reflexivity|].
  cbn [flat_map]. rewrite flat_map_app, IH. now rewrite lowerUnit_lower.
Qed.

Lemma lowerUnit_upper (c : N) :
  (c <? 128)%N = true -> lowerUnit (upperUnit c) = lowerUnit c.
Proof.
  intros Hc. apply N.ltb_lt in Hc. unfold lowerUnit, upperUnit.
  destruct (N.leb_spec 97 c), (N.leb_spec c 122); cbn [andb];
    repeat match goal with
      | |- context [N.leb ?a ?b] => destruct (N.leb_spec a b); try lia
      | |- context [N.eqb ?a ?b] => destruct (N.eqb_spec a b); try lia
      end; cbn [andb]; try reflexivity; f_equal; lia.
Qed.

Lemma toLowerCase_upper (s : jsstring) :
  isAscii s = true -> toLowerCase (toUpperCaseAscii s) = toLowerCase s.
Proof.
  unfold toLowerCase, toUpperCaseAscii, isAscii.
  induction s as [|c s IH]; [reflexivity|].
  cbn [forallb map flat_map]. intros H.
  apply andb_true_iff in H as [Hc Hs].
  now rewrite (lowerUnit_upper c Hc), (IH Hs).
Qed.

(** The classifier does not tell the case of letters: a text, its lower
    case and, for ASCII texts, its upper case get the same stage. *)
Theorem case_insensitive :
  (forall s, detectReasoningStage (toLowerCase s) = detectReasoningStage s)
  /\ (forall s, isAscii s = true ->
                detectReasoningStage (toUpperCaseAscii s)
                = detectReasoningStage s).
Proof.
  split.
  - intros s. unfold detectReasoningStage.
    now rewrite toLowerCase_idempotent.
  - intros s Hs. unfold detectReasoningStage.
    now rewrite (toLowerCase_upper s Hs).
Qed.

Lemma case_insensitive_witness :
  isAscii (units "Planning the approach") = true
  /\ toUpperCaseAscii (units "Planning the approach")
     = units "PLANNING THE APPROACH"
  /\ detectReasoningStage (units "PLANNING THE APPROACH")
     = detectReasoningStage (units "Planning the approach").
Proof.
  split; [reflexivity|]. split; [reflexivity|].
  exact (proj2 case_insensitive (units "Planning the approach") eq_refl).
Defined.

(** The classifier is the cascade over the keyword families: the stage of
    a text is that of the first of Evaluating, Executing, Deciding and
    Planning of which the lower-cased text holds a word, and Analyzing
    when it holds none. *)
Theorem classifier_is_cascade (text : jsstring) :
  detectReasoningStage text = cascade family text.
Proof.
  unfold detectReasoningStage, cascade, mentions.
  now rewrite test_evaluating, test_executing, test_deciding, test_planning.
Qed.

(* ----------------------------------------------------------------- *)
(** ** How the stage of a text depends on its parts *)

Lemma lowerUnit_separator (c : N) :
  isWordChar c = false -> c <> 304%N -> c <> 8490%N -> lowerUnit c = [c].
Proof.
  intros Hw H1 H2. unfold lowerUnit.
  destruct ((65 <=? c)%N && (c <=? 90)%N) eqn:E.
  - unfold isWordChar in Hw. rewrite E in Hw.
    now rewrite orb_true_r in Hw.
  - destruct (N.eqb_spec c 304); [contradiction|].
    destruct (N.eqb_spec c 8490); [contradiction|reflexivity].
Qed.

Lemma mentions_after_separator (st : ReasoningStage) (c : N) (t : jsstring) :
  isWordChar c = false -> c <> 304%N -> c <> 8490%N ->
  mentions (family st) (c :: t) = mentions (family st) t
  /\ firstWord (toLowerCase (c :: t)) = [].
Proof.
  intros Hw H1 H2. rewrite !mentions_splitWords.
  unfold firstWord, toLowerCase. cbn [flat_map].
  rewrite (lowerUnit_separator Hw H1 H2).
  cbn [app splitWords]. rewrite Hw. cbn [existsb hd].
  now rewrite family_nil.
Qed.

Lemma cascade_higher (fam : ReasoningStage -> jsstring -> bool)
      (x s t : jsstring) :
  (forall st, mentions (fam st) x
              = mentions (fam st) s || mentions (fam st) t) ->
  cascade fam x = higher (cascade fam s) (cascade fam t).
Proof.
  intros H. unfold cascade. rewrite !H.
  destruct (mentions (fam EVALUATING) s), (mentions (fam EVALUATING) t),
    (mentions (fam EXECUTING) s), (mentions (fam EXECUTING) t),
    (mentions (fam DECIDING) s), (mentions (fam DECIDING) t),
    (mentions (fam PLANNING) s), (mentions (fam PLANNING) t);
    reflexivity.
Qed.

Lemma isSeparator_spec (c : N) :
  isSeparator c = true ->
  isWordChar c = false /\ c <> 304%N /\ c <> 8490%N.
Proof.
  unfold isSeparator. intros H.
  apply andb_true_iff in H as [H H3]. apply andb_true_iff in H as [H1 H2].
  apply negb_true_iff in H1, H2, H3.
  split; [exact H1|]. split; now apply N.eqb_neq.
Qed.

Lemma mentions_nil (st : ReasoningStage) : mentions (family st) [] = false.
Proof.
  rewrite mentions_splitWords. cbn. now rewrite family_nil.
Qed.

Lemma mentions_skip (st : ReasoningStage) (pre t : jsstring) :
  forallb isSeparator pre = true ->
  mentions (family st) (pre ++ t) = mentions (family st) t.
Proof.
  induction pre as [|c pre IH]; intros H; [reflexivity|].
  cbn [forallb] in H. apply andb_true_iff in H as [Hc H].
  apply isSeparator_spec in Hc as [Hw [H1 H2]].
  cbn [app].
  rewrite (proj1 (mentions_after_separator st (pre ++ t) Hw H1 H2)).
  now apply IH.
Qed.

Lemma mentions_trailing (st : ReasoningStage) (s post : jsstring) :
  forallb isSeparator post = true ->
  mentions (family st) (s ++ post) = mentions (family st) s.
Proof.
  destruct post as [|c post]; intros H.
  - now rewrite app_nil_r.
  - pose proof (mentions_skip st (c :: post) [] H) as Hm.
    rewrite app_nil_r, mentions_nil in Hm.
    cbn [forallb] in H. apply andb_true_iff in H as [Hc _].
    apply isSeparator_spec in Hc as [Hw [H1 H2]].
    rewrite mentions_new_word.
    + now rewrite Hm, orb_false_r.
    + unfold startsNewWord.
      rewrite (proj2 (mentions_after_separator st post Hw H1 H2)).
      apply orb_true_r.
Qed.

Lemma mentions_analyze (st : ReasoningStage) (n : nat) (t : jsstring) :
  mentions (family st)
           (List.concat (List.repeat (units "analyze ") n) ++ t)
  = mentions (family st) t.
Proof.
  induction n as [|n IH]; [reflexivity|].
  cbn [List.repeat List.concat]. rewrite <- app_assoc.
  set (rest := List.concat (List.repeat (units "analyze ") n) ++ t) in *.
  change (units "analyze " ++ rest)
    with (units "analyze" ++ 32%N :: rest).
  assert (Hw : isWordChar 32 = false) by reflexivity.
  assert (H1 : 32%N <> 304%N) by discriminate.
  assert (H2 : 32%N <> 8490%N) by discriminate.
  destruct (mentions_after_separator st rest Hw H1 H2) as [Hm Hf].
  rewrite mentions_new_word.
  - rewrite Hm, IH. now destruct st.
  - unfold startsNewWord. rewrite Hf. apply orb_true_r.
Qed.

Lemma cascade_ext (x y : jsstring) :
  (forall st, mentions (family st) x = mentions (family st) y) ->
  cascade family x = cascade family y.
Proof. intros H. unfold cascade. now rewrite !H. Qed.

(** The sentences of the test suite of [detectReasoningStage] get the
    stages it expects, those with characters outside ASCII included; and
    what its edge cases try holds in general: any number of repetitions of
    [analyze ] before a text, and any run of separators (code units that
    are no word characters, as those of Japanese, Chinese and Arabic
    letters and of emoji) before or after a text, leave its stage as it
    is. *)
Theorem test_suite_stages :
  map classify
      ["Let me analyze this problem first";
       "I need to understand what the user is asking";
       "Looking at the code structure to analyze dependencies";
       "I'll plan out the implementation steps";
       "My approach is to use a modular solution";
       "I need to decide between approach A or B";
       "Let me choose the best option here";
       "I've determined that this is the right path";
       "Now I'll execute the plan by implementing the function";
       "I'm writing the code now";
       "I should evaluate whether this solution is correct";
       "Let me validate the results";
       "Checking if this meets the requirements";
       "I need to verify this works as expected";
       "This is a coding task";
       "The user wants something";
       "Here's what we need to do";
       "";
       "PLANNING the approach";
       "Planning the approach";
       "planning the approach";
       "First, let me analyze the problem";
       "Now I'll plan the solution";
       "I need to choose the best approach";
       "Let me execute this by implementing";
       "Finally, I'll evaluate the results";
       "I'm analyzing and evaluating this solution";
       "Let's plan! @#$%";
       "Time to execute (finally)"]%string
  = [ANALYZING; ANALYZING; ANALYZING;
     PLANNING; PLANNING;
     DECIDING; DECIDING; DECIDING;
     EXECUTING; EXECUTING;
     EVALUATING; EVALUATING; EVALUATING; EVALUATING;
     ANALYZING; ANALYZING; ANALYZING;
     ANALYZING;
     PLANNING; PLANNING; PLANNING;
     ANALYZING; PLANNING; DECIDING; EXECUTING; EVALUATING;
     EVALUATING;
     PLANNING; EXECUTING]
  /\ map detectReasoningStage
         [units "I'm deciding... " ++ [55358; 56596];
          [31169; 12399; 35336; 30011; 12434; 31435; 12390; 12390;
           12356; 12414; 12377] ++ units " planning the approach";
          [25191; 34892] ++ units " implementing the solution";
          [1578; 1602; 1610; 1610; 1605] ++ units " evaluating results"]%N
     = [DECIDING; PLANNING; EXECUTING; EVALUATING]
  /\ detectReasoningStage
       (List.concat (List.repeat (units "analyze ") 1000)
        ++ units "planning the approach") = PLANNING
  /\ (forall n t,
         detectReasoningStage
           (List.concat (List.repeat (units "analyze ") n) ++ t)
         = detectReasoningStage t)
  /\ (forall pre t,
         forallb isSeparator pre = true ->
         detectReasoningStage (pre ++ t) = detectReasoningStage t)
  /\ (forall s post,
         forallb isSeparator post = true ->
         detectReasoningStage (s ++ post) = detectReasoningStage s).
Proof.
  split; [vm_compute; reflexivity|].
  split; [vm_compute; reflexivity|].
  assert (Hrep : forall n t,
             detectReasoningStage
               (List.concat (List.repeat (units "analyze ") n) ++ t)
             = detectReasoningStage t).
  { intros n t. rewrite !detect_cascade. apply cascade_ext.
    intros st. apply mentions_analyze. }
  split; [now rewrite Hrep|]. split; [exact Hrep|]. split.
  - intros pre t H. rewrite !detect_cascade. apply cascade_ext.
    intros st. now apply mentions_skip.
  - intros s post H. rewrite !detect_cascade. apply cascade_ext.
    intros st. now apply mentions_trailing.
Qed.

(** Two texts joined by a separator (a code unit that is not a word
    character and does not lower-case to one, such as a space, a line feed
    or a punctuation mark) get the stage of higher priority of the two. *)
Theorem stage_of_joined_texts (s t : jsstring) (c : N) :
  isWordChar c = false -> c <> 304%N -> c <> 8490%N ->
  detectReasoningStage (s ++ c :: t)
  = higher (detectReasoningStage s) (detectReasoningStage t).
Proof.
  intros Hw H1 H2. rewrite !detect_cascade.
  apply cascade_higher. intros st.
  destruct (mentions_after_separator st t Hw H1 H2) as [Hm Hf].
  rewrite mentions_new_word.
  - now rewrite Hm.
  - unfold startsNewWord. rewrite Hf. apply orb_true_r.
Qed.

Lemma stage_of_joined_texts_witness :
  let s := units "Let me plan the approach" in
  let t := units "now let's execute this" in
  isWordChar 10 = false
  /\ detectReasoningStage s = PLANNING
  /\ detectReasoningStage t = EXECUTING
  /\ detectReasoningStage (s ++ 10%N :: t)
     = higher (detectReasoningStage s) (detectReasoningStage t).
Proof.
  intros s t. split; [reflexivity|]. split; [reflexivity|].
  split; [reflexivity|].
  apply (stage_of_joined_texts s t (c := 10%N)).
  - reflexivity.
  - discriminate.
  - discriminate.
Defined.

(** The stage depends on the text only through the set of words of its
    lower-cased form: the order of the words, their repetition and what
    separates them do not count. *)
Theorem stage_depends_on_words (s t : jsstring) :
  (forall w, In w (words (toLowerCase s)) <-> In w (words (toLowerCase t))) ->
  detectReasoningStage s = detectReasoningStage t.
Proof.
  intros H. rewrite !detect_cascade.
  assert (E : forall F, mentions F s = mentions F t).
  { intros F. unfold mentions.
    destruct (existsb F (words (toLowerCase s))) eqn:Es;
      destruct (existsb F (words (toLowerCase t))) eqn:Et;
      try reflexivity.
    - apply existsb_exists in Es as [w [Hin Hw]].
      apply H in Hin.
      assert (X : existsb F (words (toLowerCase t)) = true)
        by (apply existsb_exists; now exists w).
      congruence.
    - apply existsb_exists in Et as [w [Hin Hw]].
      apply H in Hin.
      assert (X : existsb F (words (toLowerCase s)) = true)
        by (apply existsb_exists; now exists w).
      congruence. }
  unfold cascade. now rewrite !E.
Qed.

Lemma stage_depends_on_words_witness :
  let s := units "Plan it, then check." in
  let t := units "check  THEN plan - it - plan" in
  (forall w, In w (words (toLowerCase s)) <-> In w (words (toLowerCase t)))
  /\ detectReasoningStage s = detectReasoningStage t.
Proof.
  intros s t.
  assert (H : forall w,
             In w (words (toLowerCase s)) <-> In w (words (toLowerCase t))).
  { intros w. vm_compute. tauto. }
  split; [exact H|]. exact (stage_depends_on_words s t H).
Defined.

(** While reasoning text accumulates, whatever is appended: a text that
    is Evaluating stays Evaluating, and the stage of a text moves to a
    lower priority only from Executing, and only when the appended text
    lengthens a final word that is one of implement, implementing,
    implemented, write, writing, written. *)
Theorem stage_never_falls (s t : jsstring) :
  (detectReasoningStage s = EVALUATING ->
   detectReasoningStage (s ++ t) = EVALUATING)
  /\ (detectReasoningStage s <> EXECUTING \/ lengthensKeyword s t = false ->
      priority (detectReasoningStage s)
      <= priority (detectReasoningStage (s ++ t))).
Proof.
  rewrite !detect_cascade.
  assert (Hle : cascade family s <> EXECUTING \/ lengthensKeyword s t = false ->
                priority (cascade family s)
                <= priority (cascade family (s ++ t))).
  { intros Hcase.
    destruct (cascade_sound family s) as [Hs _].
    destruct (cascade_sound family (s ++ t)) as [_ Hst'].
    destruct (Nat.le_gt_cases (priority (cascade family s))
                              (priority (cascade family (s ++ t))))
      as [Hle|Hgt]; [exact Hle|exfalso].
    specialize (Hst' _ Hgt).
    destruct Hs as [Hs|Hs]; [rewrite Hs in Hgt; simpl in Hgt; lia|].
    rewrite (@mentions_persists _ s t) in Hst'; [discriminate| |exact Hs].
    intros He. destruct Hcase as [Hn|Hl]; [contradiction|exact Hl]. }
  split; [|exact Hle].
  intros He. rewrite He in Hle.
  assert (Hp : priority EVALUATING <= priority (cascade family (s ++ t)))
    by (apply Hle; left; discriminate).
  destruct (cascade family (s ++ t)); simpl in Hp; (reflexivity || lia).
Qed.

Lemma stage_never_falls_witness :
  let s := units "I should check" in
  let t := units "ed the plan and write" in
  detectReasoningStage s = EVALUATING
  /\ detectReasoningStage (s ++ t) = EVALUATING.
Proof.
  intros s t. split; [reflexivity|].
  exact (proj1 (stage_never_falls s t) eq_refl).
Defined.

(** The label and the enum value of every stage are read back by the
    classifier as that stage, the value is the lower-cased label, and no
    two stages share a label, an icon or a colour. *)
Theorem visuals_round_trip :
  (forall st,
      classify (Visuals.label (Visuals.REASONING_VISUALS st)) = st
      /\ classify (Visuals.stageValue st) = st
      /\ toLowerCase (units (Visuals.label (Visuals.REASONING_VISUALS st)))
         = units (Visuals.stageValue st))
  /\ (forall a b,
         Visuals.label (Visuals.REASONING_VISUALS a)
         = Visuals.label (Visuals.REASONING_VISUALS b)
         \/ Visuals.icon (Visuals.REASONING_VISUALS a)
            = Visuals.icon (Visuals.REASONING_VISUALS b)
         \/ Visuals.color (Visuals.REASONING_VISUALS a)
            = Visuals.color (Visuals.REASONING_VISUALS b) ->
         a = b).
Proof.
  split.
  - intros []; repeat split; reflexivity.
  - intros [] [] [H|[H|H]]; try reflexivity; discriminate H.
Qed.

(* ----------------------------------------------------------------- *)
(** ** Sequences of console calls *)

Lemma performAll_app (cs1 cs2 : list ConsoleReasoning.call)
      (st : ConsoleReasoning.state) :
  ConsoleReasoning.performAll (cs1 ++ cs2) st
  = (fst (ConsoleReasoning.performAll
            cs2 (fst (ConsoleReasoning.performAll cs1 st))),
     snd (ConsoleReasoning.performAll cs1 st)
     ++ snd (ConsoleReasoning.performAll
               cs2 (fst (ConsoleReasoning.performAll cs1 st)))).
Proof.
  revert st. induction cs1 as [|c cs1 IH]; intros st.
  - cbn [app ConsoleReasoning.performAll fst snd].
    now destruct (ConsoleReasoning.performAll cs2 st).
  - cbn [app ConsoleReasoning.performAll].
    destruct (ConsoleReasoning.perform c st) as [st1 o1].
    rewrite IH.
    destruct (ConsoleReasoning.performAll cs1 st1) as [st2 o2].
    cbn [fst snd]. now rewrite app_assoc.
Qed.

Lemma finish_initial (st : ConsoleReasoning.state) :
  fst (ConsoleReasoning.finishClaudeTurn st) = ConsoleReasoning.initial.
Proof. now destruct st as [[|] active]. Qed.

Lemma stdoutText_app (a b : list output) :
  stdoutText (a ++ b) = stdoutText a ++ stdoutText b.
Proof. apply flat_map_app. Qed.

Lemma stdoutCallerPieces_app (a b : list output) :
  stdoutCallerPieces (a ++ b)
  = stdoutCallerPieces a ++ stdoutCallerPieces b.
Proof. apply flat_map_app. Qed.

(** Every string that a caller hands to [console_reasoning] for standard
    output is written there once, in call order, in every state of the
    flags and whatever other calls come in between: the text of [claude]
    and [claudeStream] as it was given, through no colour function, and
    the argument of [banner], [thinkingStream], [reasoningCollapsed],
    [toolStart], [toolEnd], [success] and [info] passed to [picocolors];
    no other text of a caller is written to standard output. *)
Theorem caller_text_shown_in_order (cs : list ConsoleReasoning.call)
        (st : ConsoleReasoning.state) :
  stdoutCallerPieces (snd (ConsoleReasoning.performAll cs st))
  = flat_map handedTo cs.
Proof.
  revert st. induction cs as [|c cs IH]; intros st; [reflexivity|].
  cbn [ConsoleReasoning.performAll].
  destruct (ConsoleReasoning.perform c st) as [st1 o1] eqn:E1.
  specialize (IH st1).
  destruct (ConsoleReasoning.performAll cs st1) as [st2 o2].
  cbn [snd] in *. rewrite stdoutCallerPieces_app, IH.
  cbn [flat_map]. f_equal. destruct st as [started active].
  destruct c;
    repeat match goal with b : bool |- _ => destruct b end;
    cbn in E1; inversion E1; subst; reflexivity.
Qed.

Lemma flags_frame (cs : list ConsoleReasoning.call)
      (st1 st2 : ConsoleReasoning.state) :
  (ConsoleReasoning.claudeTurnStarted st1
   = ConsoleReasoning.claudeTurnStarted st2 ->
   labels (snd (ConsoleReasoning.performAll cs st1))
   = labels (snd (ConsoleReasoning.performAll (filter turnCall cs) st2))
   /\ ConsoleReasoning.claudeTurnStarted
        (fst (ConsoleReasoning.performAll cs st1))
      = ConsoleReasoning.claudeTurnStarted
          (fst (ConsoleReasoning.performAll (filter turnCall cs) st2)))
  /\ (ConsoleReasoning.reasoningBlockActive st1
      = ConsoleReasoning.reasoningBlockActive st2 ->
      ConsoleReasoning.reasoningBlockActive
        (fst (ConsoleReasoning.performAll cs st1))
      = ConsoleReasoning.reasoningBlockActive
          (fst (ConsoleReasoning.performAll (filter reasoningCall cs) st2))).
Proof.
  revert st1 st2. induction cs as [|c cs IH]; intros st1 st2.
  - split; intros H; cbn; auto.
  - split; intros H.
    + cbn [ConsoleReasoning.performAll filter].
      destruct (ConsoleReasoning.perform c st1) as [s1 o1] eqn:E1.
      destruct (turnCall c) eqn:Hc.
      * cbn [ConsoleReasoning.performAll].
        destruct (ConsoleReasoning.perform c st2) as [s2 o2] eqn:E2.
        assert (Hs : ConsoleReasoning.claudeTurnStarted s1
                     = ConsoleReasoning.claudeTurnStarted s2
                     /\ labels o1 = labels o2).
        { destruct st1 as [a1 r1], st2 as [a2 r2]. cbn in H. subst a2.
          destruct c; try discriminate Hc;
            repeat match goal with b : bool |- _ => destruct b end;
            cbn in E1, E2; inversion E1; inversion E2; subst; auto. }
        destruct Hs as [Hs Hl].
        destruct (proj1 (IH s1 s2) Hs) as [IHl IHs].
        destruct (ConsoleReasoning.performAll cs s1) as [s1' o1'].
        destruct (ConsoleReasoning.performAll (filter turnCall cs) s2)
          as [s2' o2'].
        cbn [fst snd] in *. rewrite !labels_app. auto.
      * assert (Hs : ConsoleReasoning.claudeTurnStarted s1
                     = ConsoleReasoning.claudeTurnStarted st2
                     /\ labels o1 = 0).
        { destruct st1 as [a1 r1], st2 as [a2 r2]. cbn in H. subst a2.
          destruct c; try discriminate Hc;
            repeat match goal with b : bool |- _ => destruct b end;
            cbn in E1; inversion E1; subst; auto. }
        destruct Hs as [Hs Hl].
        destruct (proj1 (IH s1 st2) Hs) as [IHl IHs].
        destruct (ConsoleReasoning.performAll cs s1) as [s1' o1'].
        cbn [fst snd] in *. rewrite labels_app, Hl. auto.
    + cbn [ConsoleReasoning.performAll filter].
      destruct (ConsoleReasoning.perform c st1) as [s1 o1] eqn:E1.
      destruct (reasoningCall c) eqn:Hc.
      * cbn [ConsoleReasoning.performAll].
        destruct (ConsoleReasoning.perform c st2) as [s2 o2] eqn:E2.
        assert (Hs : ConsoleReasoning.reasoningBlockActive s1
                     = ConsoleReasoning.reasoningBlockActive s2).
        { destruct st1 as [a1 r1], st2 as [a2 r2]. cbn in H. subst r2.
          destruct c; try discriminate Hc;
            repeat match goal with b : bool |- _ => destruct b end;
            cbn in E1, E2; inversion E1; inversion E2; subst; auto. }
        pose proof (proj2 (IH s1 s2) Hs) as IHs.
        destruct (ConsoleReasoning.performAll cs s1) as [s1' o1'].
        destruct (ConsoleReasoning.performAll (filter reasoningCall cs) s2)
          as [s2' o2'].
        exact IHs.
      * assert (Hs : ConsoleReasoning.reasoningBlockActive s1
                     = ConsoleReasoning.reasoningBlockActive st2).
        { destruct st1 as [a1 r1], st2 as [a2 r2]. cbn in H. subst r2.
          destruct c; try discriminate Hc;
            repeat match goal with b : bool |- _ => destruct b end;
            cbn in E1; inversion E1; subst; auto. }
        pose proof (proj2 (IH s1 st2) Hs) as IHs.
        destruct (ConsoleReasoning.performAll cs s1) as [s1' o1'].
        exact IHs.
Qed.

(** The two flags of [console-reasoning.ts] do not interfere: the number
    of [Claude] prefixes written and the final [claudeTurnStarted] are
    those of the calls to [claude], [claudeStream] and [finishClaudeTurn]
    alone, and the final [reasoningBlockActive] is that of the calls to
    [reasoningStart], [reasoningEnd] and [finishClaudeTurn] alone: tool
    lines, messages and reasoning output never cost or add a prefix. *)
Theorem flags_do_not_interfere (cs : list ConsoleReasoning.call)
        (st : ConsoleReasoning.state) :
  labels (snd (ConsoleReasoning.performAll cs st))
  = labels (snd (ConsoleReasoning.performAll (filter turnCall cs) st))
  /\ ConsoleReasoning.claudeTurnStarted
       (fst (ConsoleReasoning.performAll cs st))
     = ConsoleReasoning.claudeTurnStarted
         (fst (ConsoleReasoning.performAll (filter turnCall cs) st))
  /\ ConsoleReasoning.reasoningBlockActive
       (fst (ConsoleReasoning.performAll cs st))
     = ConsoleReasoning.reasoningBlockActive
         (fst (ConsoleReasoning.performAll (filter reasoningCall cs) st)).
Proof.
  destruct (flags_frame cs st st) as [H1 H2].
  destruct (H1 eq_refl) as [Hl Hs].
  split; [exact Hl|]. split; [exact Hs|exact (H2 eq_refl)].
Qed.

(** [finishClaudeTurn] separates turns completely: after it the module is
    in its initial state whatever came before, so what the calls after it
    show is what they show from a fresh start, and a turn after it that
    holds a text writes the prefix exactly once. *)
Theorem turns_are_independent (cs1 cs2 : list ConsoleReasoning.call)
        (st : ConsoleReasoning.state) :
  ConsoleReasoning.performAll
    (cs1 ++ ConsoleReasoning.FinishClaudeTurn :: cs2) st
  = (fst (ConsoleReasoning.performAll cs2 ConsoleReasoning.initial),
     snd (ConsoleReasoning.performAll
            (cs1 ++ [ConsoleReasoning.FinishClaudeTurn]) st)
     ++ snd (ConsoleReasoning.performAll cs2 ConsoleReasoning.initial))
  /\ (existsb ConsoleReasoning.isFinish cs2 = false ->
      existsb ConsoleReasoning.isText cs2 = true ->
      labels (snd (ConsoleReasoning.performAll
                     (cs1 ++ ConsoleReasoning.FinishClaudeTurn :: cs2) st))
      = labels (snd (ConsoleReasoning.performAll
                       (cs1 ++ [ConsoleReasoning.FinishClaudeTurn]) st))
        + 1).
Proof.
  assert (E : ConsoleReasoning.performAll
                (cs1 ++ ConsoleReasoning.FinishClaudeTurn :: cs2) st
              = (fst (ConsoleReasoning.performAll
                        cs2 ConsoleReasoning.initial),
                 snd (ConsoleReasoning.performAll
                        (cs1 ++ [ConsoleReasoning.FinishClaudeTurn]) st)
                 ++ snd (ConsoleReasoning.performAll
                           cs2 ConsoleReasoning.initial))).
  { change (cs1 ++ ConsoleReasoning.FinishClaudeTurn :: cs2)
      with (cs1 ++ [ConsoleReasoning.FinishClaudeTurn] ++ cs2).
    rewrite app_assoc, performAll_app.
    assert (Hst : fst (ConsoleReasoning.performAll
                         (cs1 ++ [ConsoleReasoning.FinishClaudeTurn]) st)
                  = ConsoleReasoning.initial).
    { rewrite performAll_app. cbn [fst].
      cbn [ConsoleReasoning.performAll ConsoleReasoning.perform].
      destruct (ConsoleReasoning.finishClaudeTurn
                  (fst (ConsoleReasoning.performAll cs1 st)))
        as [s o] eqn:Ef.
      cbn [fst]. rewrite <- (finish_initial
                               (fst (ConsoleReasoning.performAll cs1 st))).
      now rewrite Ef. }
    now rewrite Hst. }
  split; [exact E|].
  intros Hfin Htxt. rewrite E. cbn [snd]. rewrite labels_app.
  rewrite (proj1 (labels_of_a_turn cs2 ConsoleReasoning.initial Hfin)).
  cbn. now rewrite Htxt.
Qed.

Lemma turns_are_independent_witness :
  let hello := units "Hello" in
  let again := units "Again" in
  labels (snd (ConsoleReasoning.performAll
                 ([ConsoleReasoning.ClaudeStream hello]
                  ++ ConsoleReasoning.FinishClaudeTurn
                  :: [ConsoleReasoning.ToolStart (units "bash");
                      ConsoleReasoning.ClaudeStream again])
                 ConsoleReasoning.initial))
  = 2.
Proof.
  intros hello again.
  exact (proj2 (turns_are_independent
                  [ConsoleReasoning.ClaudeStream hello]
                  [ConsoleReasoning.ToolStart (units "bash");
                   ConsoleReasoning.ClaudeStream again]
                  ConsoleReasoning.initial) eq_refl eq_refl).
Defined.

(** A reasoning block is closed once: after [reasoningStart], of any
    number of calls to [reasoningEnd] the first prints the newline and the
    others print nothing; and [finishClaudeTurn] closes an open block
    without printing that newline, after which [reasoningEnd] prints
    nothing. *)
Theorem reasoning_block_closed_once :
  (forall st stage collapsed n,
      snd (ConsoleReasoning.performAll
             (ConsoleReasoning.ReasoningStart stage collapsed
              :: repeat ConsoleReasoning.ReasoningEnd (S n)) st)
      = snd (ConsoleReasoning.reasoningStart stage collapsed st)
        ++ [OutLine []])
  /\ (forall st,
         ConsoleReasoning.reasoningEnd
           (fst (ConsoleReasoning.reasoningEnd st))
         = (fst (ConsoleReasoning.reasoningEnd st), []))
  /\ (forall st stage collapsed,
         snd (ConsoleReasoning.performAll
                [ConsoleReasoning.ReasoningStart stage collapsed;
                 ConsoleReasoning.FinishClaudeTurn;
                 ConsoleReasoning.ReasoningEnd] st)
         = snd (ConsoleReasoning.reasoningStart stage collapsed st)
           ++ snd (ConsoleReasoning.finishClaudeTurn st)).
Proof.
  split; [|split].
  - intros [started active] stage collapsed n.
    cbn [ConsoleReasoning.performAll ConsoleReasoning.perform repeat].
    cbn [ConsoleReasoning.reasoningStart ConsoleReasoning.reasoningEnd
           ConsoleReasoning.reasoningBlockActive
           ConsoleReasoning.claudeTurnStarted snd].
    assert (H : forall s, ConsoleReasoning.reasoningBlockActive s = false ->
                  ConsoleReasoning.performAll
                    (repeat ConsoleReasoning.ReasoningEnd n) s = (s, [])).
    { induction n as [|n IH]; intros s Hs; [reflexivity|].
      cbn [repeat ConsoleReasoning.performAll ConsoleReasoning.perform].
      unfold ConsoleReasoning.reasoningEnd. rewrite Hs.
      now rewrite (IH s Hs). }
    rewrite H by reflexivity. reflexivity.
  - intros [started [|]]; reflexivity.
  - intros [[|] active] stage collapsed; reflexivity.
Qed.

(* ----------------------------------------------------------------- *)
(** ** [console.ts] over sequences of calls *)

Lemma consoleOut_app (cs1 cs2 : list ConsoleOut.call) (st : Console.state) :
  ConsoleOut.performAll (cs1 ++ cs2) st
  = (fst (ConsoleOut.performAll cs2 (fst (ConsoleOut.performAll cs1 st))),
     snd (ConsoleOut.performAll cs1 st)
     ++ snd (ConsoleOut.performAll
               cs2 (fst (ConsoleOut.performAll cs1 st)))).
Proof.
  revert st. induction cs1 as [|c cs1 IH]; intros st.
  - cbn [app ConsoleOut.performAll fst snd].
    now destruct (ConsoleOut.performAll cs2 st).
  - cbn [app ConsoleOut.performAll].
    destruct (ConsoleOut.perform c st) as [st1 o1].
    rewrite IH.
    destruct (ConsoleOut.performAll cs1 st1) as [st2 o2].
    cbn [fst snd]. now rewrite app_assoc.
Qed.

(** [console_out] over any sequence of calls: every message handed to
    [banner] or [claude] is printed once, in call order; [userPrompt],
    [banner] and [error] do not re-arm the prefix, so that without a
    [finishClaudeTurn] the prefix is written at most once, and exactly
    once when it was not yet written and there is a call to [claude];
    and after [finishClaudeTurn] the module is in its initial state. *)
Theorem console_out_sessions (cs : list ConsoleOut.call) (st : Console.state) :
  stdoutText (snd (ConsoleOut.performAll cs st)) = ConsoleOut.handed cs
  /\ (existsb ConsoleOut.isFinish cs = false ->
      labels (snd (ConsoleOut.performAll cs st))
      = if Console.claudeTurnStarted st then 0
        else if existsb ConsoleOut.isText cs then 1 else 0)
  /\ fst (ConsoleOut.performAll (cs ++ [ConsoleOut.FinishClaudeTurn]) st)
     = Console.initial.
Proof.
  split; [|split].
  - revert st. induction cs as [|c cs IH]; intros st; [reflexivity|].
    cbn [ConsoleOut.performAll].
    destruct (ConsoleOut.perform c st) as [st1 o1] eqn:E1.
    specialize (IH st1).
    destruct (ConsoleOut.performAll cs st1) as [st2 o2].
    cbn [snd] in *. rewrite stdoutText_app, IH.
    unfold ConsoleOut.handed. cbn [flat_map].
    f_equal. destruct st as [[|]];
      destruct c; cbn in E1; inversion E1; subst; reflexivity.
  - revert st. induction cs as [|c cs IH]; intros st Hfin.
    + cbn. now destruct (Console.claudeTurnStarted st).
    + cbn [existsb] in Hfin. apply orb_false_iff in Hfin as [Hc Hcs].
      cbn [ConsoleOut.performAll].
      destruct (ConsoleOut.perform c st) as [st1 o1] eqn:E1.
      specialize (IH st1 Hcs).
      destruct (ConsoleOut.performAll cs st1) as [st2 o2].
      cbn [snd] in *. rewrite labels_app, IH.
      destruct st as [[|]];
        destruct c; try discriminate Hc;
        cbn in E1; inversion E1; subst; cbn;
        try (destruct (existsb ConsoleOut.isText cs)); reflexivity.
  - rewrite consoleOut_app. cbn [fst].
    cbn [ConsoleOut.performAll ConsoleOut.perform].
    destruct (fst (ConsoleOut.performAll cs st)) as [[|]]; reflexivity.
Qed.

Lemma console_out_sessions_witness :
  let cs := [ConsoleOut.Claude (units "one");
             ConsoleOut.UserPrompt;
             ConsoleOut.Claude (units "two")] in
  existsb ConsoleOut.isFinish cs = false
  /\ labels (snd (ConsoleOut.performAll cs Console.initial)) = 1.
Proof.
  intros cs. split; [reflexivity|].
  exact (proj1 (proj2 (console_out_sessions cs Console.initial)) eq_refl).
Defined.

(* ----------------------------------------------------------------- *)
(** ** The program of [index.ts] *)


